(** * Admission control of the [maxconnections] middleware

    The Go package bounds the number of requests that run a wrapped
    [http.Handler] at the same time ([m.running], a buffered channel used as a
    counting semaphore) and the number of requests that wait for a free slot
    ([m.queue]).  Two versions of the package are verified here:

    - [Maxconnections]: [src/maxconnections/maxconnections.go];
    - [Part000]: the package text in [src/unnamed/part_000]
      ([New], [enqueueRunning], [ServeHTTP]).

    Each Go function is written in a small monad [M] whose operations are the
    Go primitives the code uses (a [select] with a [default] case, a channel
    receive, [time.NewTimer], [timer.Stop], the three-way [select] of the
    queued wait, a call of a handler).  One goroutine runs [ServeHTTP] per
    request; the goroutines are interleaved by a scheduler, and the buffers of
    the two channels are the only shared state. *)

From stdpp Require Import base decidable option list list_numbers gmap.
From Stdlib Require Import ZArith Lia.

Local Open Scope Z_scope.

(** ** Go values *)

(** An [http.Handler].  The package only ever calls it. *)
Inductive Handler : Type :=
| defaultOverloadHandler
| user_handler (n : nat).

(** The package variable [OverloadHandler]; nothing in the repository assigns
    it after its initialisation. *)
Definition OverloadHandler_var : Handler := defaultOverloadHandler.

(** A [chan struct{}]: its elements carry no data, so a channel is its buffer
    capacity, and its contents are the number of buffered elements (kept in
    the state of the system, see [state]). *)
Record chan : Type := mkchan { cap : nat }.

(** What a Go function call gives back: a value, or a run-time panic. *)
Inductive result (A : Type) : Type :=
| Ok (a : A)
| RuntimePanic.
Arguments Ok {A} a.
Arguments RuntimePanic {A}.

(** [make(chan struct{}, n)] for an [n] of type [int] that is not a constant:
    the run time panics when [n] is negative.  The element size is zero, so
    no capacity is too large to allocate. *)
Definition make_chan (n : Z) : result chan :=
  if n <? 0 then RuntimePanic else Ok (mkchan (Z.to_nat n)).

(** The struct [Middleware].  The field [newTimer] is a seam of the tests (it
    replaces [time.NewTimer] by a timer whose channel the test closes); timers
    are abstract here, see [time_chan]. *)
Record Middleware : Type := mkMiddleware {
  running : chan;
  queue : chan;
  handler : Handler;
  MaxWaitInQueue : Z;
  OverloadHandler : option Handler   (* [None] is Go's [nil] *)
}.

(** The two channel fields, as the code names them: [m.running], [m.queue]. *)
Inductive chan_sel : Type := m_running | m_queue.

Definition chan_of (m : Middleware) (c : chan_sel) : chan :=
  match c with m_running => running m | m_queue => queue m end.

(** A [*time.Timer] made for a duration. *)
Inductive timer : Type := Timer (d : Z).

(** The channel read by the [case <-timeout] of the queued wait. *)
Inductive time_chan : Type :=
| openTimeChannel          (* the package variable: never sent to, never closed *)
| nil_chan                 (* the zero value of [<-chan time.Time] *)
| timer_C (t : timer).     (* [timer.C] *)

(** Whether a receive from the channel can ever proceed.  Time is abstract: an
    armed timer may fire at any instant. *)
Definition may_fire (tc : time_chan) : bool :=
  match tc with timer_C _ => true | _ => false end.

(** Which case of the three-way [select] was taken. *)
Inductive wakeup : Type := WonSend | WonTimeout | WonDone.

(** How a handler call ends. *)
Inductive call_result : Type := Returns | Panics.

(** The call site of a handler: [m.handler.ServeHTTP] or the overload
    handler's [ServeHTTP]. *)
Inductive role : Type := Delegate | Overload.

Global Instance Handler_eq_dec : EqDecision Handler.
Proof. solve_decision. Defined.
Global Instance chan_sel_eq_dec : EqDecision chan_sel.
Proof. solve_decision. Defined.
Global Instance timer_eq_dec : EqDecision timer.
Proof. solve_decision. Defined.
Global Instance role_eq_dec : EqDecision role.
Proof. solve_decision. Defined.
Global Instance call_result_eq_dec : EqDecision call_result.
Proof. solve_decision. Defined.

(** ** The monad of goroutine code *)

Inductive M (A : Type) : Type :=
| Ret (a : A)                                         (* return a *)
| Panic                                               (* a run-time panic unwinds *)
| SelectSendOrDefault (c : chan_sel) (k : bool → M A) (* select { case c <- struct{}{}: ..  default: .. } *)
| Recv (c : chan_sel) (k : M A)                       (* <-c *)
| NewTimer (d : Z) (k : timer → M A)                  (* newTimer(d) *)
| Stop (t : timer) (k : M A)                          (* t.Stop() *)
| Select3 (c : chan_sel) (tc : time_chan) (k : wakeup → M A)
      (* select { case c <- struct{}{}: ..  case <-tc: ..  case <-ctx.Done(): .. } *)
| Invoke (s : role) (h : Handler) (k : M A)           (* h.ServeHTTP(w, r) is entered *)
| Await (k : call_result → M A).                      (* ... and comes back *)
Arguments Ret {A} a.
Arguments Panic {A}.
Arguments SelectSendOrDefault {A} c k.
Arguments Recv {A} c k.
Arguments NewTimer {A} d k.
Arguments Stop {A} t k.
Arguments Select3 {A} c tc k.
Arguments Invoke {A} s h k.
Arguments Await {A} k.

Fixpoint bind {A B : Type} (p : M A) (f : A → M B) : M B :=
  match p with
  | Ret a => f a
  | Panic => Panic
  | SelectSendOrDefault c k => SelectSendOrDefault c (λ b, bind (k b) f)
  | Recv c k => Recv c (bind k f)
  | NewTimer d k => NewTimer d (λ t, bind (k t) f)
  | Stop t k => Stop t (bind k f)
  | Select3 c tc k => Select3 c tc (λ w, bind (k w) f)
  | Invoke s h k => Invoke s h (bind k f)
  | Await k => Await (λ r, bind (k r) f)
  end.

Global Instance M_ret : MRet M := @Ret.
Global Instance M_bind : MBind M := λ A B f p, bind p f.

(** [defer d; body]: the deferred call [d] runs when the function leaves
    [body], by a return or by a panic that unwinds through it. *)
Fixpoint defer {A : Type} (d : M unit) (body : M A) : M A :=
  match body with
  | Ret a => bind d (λ _, Ret a)
  | Panic => bind d (λ _, Panic)
  | SelectSendOrDefault c k => SelectSendOrDefault c (λ b, defer d (k b))
  | Recv c k => Recv c (defer d k)
  | NewTimer t k => NewTimer t (λ x, defer d (k x))
  | Stop t k => Stop t (defer d k)
  | Select3 c tc k => Select3 c tc (λ w, defer d (k w))
  | Invoke s h k => Invoke s h (defer d k)
  | Await k => Await (λ r, defer d (k r))
  end.

Definition select_send_default (c : chan_sel) : M bool :=
  SelectSendOrDefault c Ret.
Definition recv (c : chan_sel) : M unit := Recv c (Ret tt).
Definition newTimer (d : Z) : M timer := NewTimer d Ret.
Definition stop (t : timer) : M unit := Stop t (Ret tt).
Definition select3 (c : chan_sel) (tc : time_chan) : M wakeup := Select3 c tc Ret.
Definition call (s : role) (h : Handler) : M unit :=
  Invoke s h (Await (λ r, match r with Returns => Ret tt | Panics => Panic end)).

(** ** [src/maxconnections/maxconnections.go] *)

Module Maxconnections.

Definition New (maxRunning maxInQueue : Z) (h : Handler) : result Middleware :=
  match make_chan maxRunning with
  | RuntimePanic => RuntimePanic
  | Ok r =>
      match make_chan maxInQueue with
      | RuntimePanic => RuntimePanic
      | Ok q =>
          Ok {| running := r; queue := q; handler := h;
                MaxWaitInQueue := 0; OverloadHandler := None |}
      end
  end.

Definition ServeHTTP (m : Middleware) : M unit :=
  sent ← select_send_default m_running;
  if sent : bool then
    defer (recv m_running) (call Delegate (handler m))
  else
    (* Slow-path. *)
    let overloadHandler :=
      match OverloadHandler m with
      | None => OverloadHandler_var
      | Some h => h
      end in
    queued ← select_send_default m_queue;
    if queued : bool then
      '(timeout, timer) ←
        (if 0 <? MaxWaitInQueue m then
           t ← newTimer (MaxWaitInQueue m);
           mret (timer_C t, Some t)
         else mret (openTimeChannel, None));
      w ← select3 m_running timeout;
      match w with
      | WonSend =>
          recv m_queue;;
          match timer with Some t => stop t | None => mret tt end;;
          defer (recv m_running) (call Delegate (handler m))
      | WonTimeout =>
          recv m_queue;;
          call Overload overloadHandler
      | WonDone =>
          recv m_queue;;
          match timer with Some t => stop t | None => mret tt end
      end
    else
      call Overload overloadHandler.

End Maxconnections.

(** ** The package text of [src/unnamed/part_000] *)

Module Part000.

Definition New (maxRunning maxInQueue : Z) (h : Handler) : result Middleware :=
  match make_chan maxRunning with
  | RuntimePanic => RuntimePanic
  | Ok r =>
      match make_chan maxInQueue with
      | RuntimePanic => RuntimePanic
      | Ok q =>
          Ok {| running := r; queue := q; handler := h;
                MaxWaitInQueue := 0;
                OverloadHandler := Some OverloadHandler_var |}
      end
  end.

Definition enqueueRunning (m : Middleware) : M bool :=
  sent ← select_send_default m_running;
  if sent : bool then mret true
  else
    (* Slow-path. *)
    queued ← select_send_default m_queue;
    if queued : bool then
      defer (recv m_queue)
        (let wait (timeout : time_chan) : M bool :=
           w ← select3 m_running timeout;
           match w with
           | WonSend => mret true
           | WonTimeout => mret false
           | WonDone => mret false
           end in
         if 0 <? MaxWaitInQueue m then
           timer ← newTimer (MaxWaitInQueue m);
           defer (stop timer) (wait (timer_C timer))
         else wait nil_chan)
    else mret false.

Definition ServeHTTP (m : Middleware) : M unit :=
  enqueued ← enqueueRunning m;
  if enqueued : bool then
    defer (recv m_running) (call Delegate (handler m))
  else
    match OverloadHandler m with
    | Some h => call Overload h
    | None => Panic            (* a method call on a nil interface *)
    end.

End Part000.

(** ** One goroutine: labelled steps *)

(** What a step of a goroutine does, as an observer of the goroutine sees
    it. *)
Inductive obs : Type :=
| SendOk (c : chan_sel)        (* select with default: the send case *)
| SendFull (c : chan_sel)      (* select with default: the default case *)
| Recvd (c : chan_sel)         (* a receive completed *)
| TimerNew (t : timer)
| TimerStopped (t : timer)
| RaceSent (c : chan_sel)      (* three-way select: the send case *)
| RaceTimeout                  (* three-way select: case <-timeout *)
| RaceCancel                   (* three-way select: case <-ctx.Done() *)
| Invoked (s : role) (h : Handler)
| Finished (r : call_result).

Global Instance obs_eq_dec : EqDecision obs.
Proof. solve_decision. Defined.

(** The step of the code [p] that an observer sees as [o], if [p] has one.
    The [case <-timeout] needs a channel that can deliver. *)
Definition lstep {A : Type} (p : M A) (o : obs) : option (M A) :=
  match p, o with
  | SelectSendOrDefault c k, SendOk c' => if decide (c = c') then Some (k true) else None
  | SelectSendOrDefault c k, SendFull c' => if decide (c = c') then Some (k false) else None
  | Recv c k, Recvd c' => if decide (c = c') then Some k else None
  | NewTimer d k, TimerNew t => if decide (t = Timer d) then Some (k t) else None
  | Stop t k, TimerStopped t' => if decide (t = t') then Some k else None
  | Select3 c tc k, RaceSent c' => if decide (c = c') then Some (k WonSend) else None
  | Select3 c tc k, RaceTimeout => if may_fire tc then Some (k WonTimeout) else None
  | Select3 c tc k, RaceCancel => Some (k WonDone)
  | Invoke s h k, Invoked s' h' =>
      if decide (s = s') then if decide (h = h') then Some k else None else None
  | Await k, Finished r => Some (k r)
  | _, _ => None
  end.

(** The function has returned, or a panic has unwound it. *)
Definition finished {A : Type} (p : M A) : bool :=
  match p with Ret _ | Panic => true | _ => false end.

(** [lrun p l q]: the code [p] makes the steps [l], oldest first, and is then
    at [q]. *)
Inductive lrun {A : Type} : M A → list obs → M A → Prop :=
| lrun_nil p : lrun p [] p
| lrun_cons p o q l r : lstep p o = Some q → lrun q l r → lrun p (o :: l) r.

(** ** Permits: what a goroutine's steps acquire and release *)

Definition acquires (c : chan_sel) (o : obs) : nat :=
  match o with
  | SendOk c' | RaceSent c' => if decide (c = c') then 1%nat else 0%nat
  | _ => 0%nat
  end.

Definition releases (c : chan_sel) (o : obs) : nat :=
  match o with
  | Recvd c' => if decide (c = c') then 1%nat else 0%nat
  | _ => 0%nat
  end.

Definition acquired (c : chan_sel) (l : list obs) : nat := sum_list_with (acquires c) l.
Definition released (c : chan_sel) (l : list obs) : nat := sum_list_with (releases c) l.

(** The permits of pool [c] a goroutine holds after the steps [l]. *)
Definition held (c : chan_sel) (l : list obs) : nat := (acquired c l - released c l)%nat.

(** ** The system: goroutines over two shared channels *)

Record goroutine : Type := mkG { log : list obs; code : M unit }.

(** [len c] is [len(c)] of Go: the number of elements in the buffer. *)
Record state : Type := mkState { len : chan_sel → nat; procs : list goroutine }.

(** A system is the capacities of the two channels and the code each request
    runs. *)
Record system : Type := mkSystem { sys_cap : chan_sel → nat; sys_code : M unit }.

Definition init : state := {| len := λ _, 0%nat; procs := [] |}.

(** What the scheduler does next. *)
Inductive action : Type :=
| Arrive                              (* the server starts a goroutine for a new request *)
| Act (i : nat) (o : obs)             (* goroutine [i] makes the step [o] *)
| Handoff (i j : nat) (o : obs).      (* sender [i] hands its element to the receiver [j] parked on
                                         the same channel, whose buffer is empty *)

(** Whether the channels let a step through: a send needs room in the buffer,
    the default case of a select is taken when there is none, a receive needs
    an element. *)
Definition enabled (S : system) (s : state) (o : obs) : bool :=
  match o with
  | SendOk c | RaceSent c => bool_decide (len s c < sys_cap S c)%nat
  | SendFull c => bool_decide (sys_cap S c ≤ len s c)%nat
  | Recvd c => bool_decide (0 < len s c)%nat
  | _ => true
  end.

(** The channel a step sends to. *)
Definition sends_to (o : obs) : option chan_sel :=
  match o with
  | SendOk c | RaceSent c => Some c
  | _ => None
  end.

Definition advance (g : goroutine) (o : obs) : option goroutine :=
  q ← lstep (code g) o; Some {| log := log g ++ [o]; code := q |}.

Definition step (S : system) (s : state) (a : action) : option state :=
  match a with
  | Arrive =>
      Some {| len := len s; procs := procs s ++ [ {| log := []; code := sys_code S |} ] |}
  | Act i o =>
      g ← procs s !! i;
      g' ← advance g o;
      if enabled S s o then
        Some {| len := λ c, (len s c + acquires c o - releases c o)%nat;
                procs := <[i := g']> (procs s) |}
      else None
  | Handoff i j o =>
      c ← sends_to o;
      gi ← procs s !! i;
      gj ← procs s !! j;
      gi' ← advance gi o;
      gj' ← advance gj (Recvd c);
      if bool_decide (i ≠ j ∧ len s c = 0%nat) then
        Some {| len := len s; procs := <[j := gj']> (<[i := gi']> (procs s)) |}
      else None
  end.

Fixpoint run (S : system) (s : state) (σ : list action) : option state :=
  match σ with
  | [] => Some s
  | a :: σ' => s' ← step S s a; run S s' σ'
  end.

Definition reachable (S : system) (s : state) : Prop := ∃ σ, run S init σ = Some s.

(** All goroutines have left [ServeHTTP]. *)
Definition quiescent (s : state) : Prop := Forall (λ g, finished (code g) = true) (procs s).

(** Totals over the goroutines. *)
Definition total (f : list obs → nat) (s : state) : nat :=
  sum_list_with (λ g, f (log g)) (procs s).

(** The goroutine is inside a handler called at site [r]. *)
Definition inside (r : role) (g : goroutine) : Prop :=
  ∃ h, last (log g) = Some (Invoked r h).

Global Instance inside_dec r g : Decision (inside r g).
Proof.
  unfold inside. destruct (last (log g)) as [[]|] eqn:E;
    try (right; intros [h Hh]; congruence).
  destruct (decide (s = r)) as [->|Hne].
  - left. eauto.
  - right. intros [h' Hh]. congruence.
Defined.

(** The systems of the two versions. *)
Definition system_of (ServeHTTP : Middleware → M unit) (m : Middleware) : system :=
  {| sys_cap := λ c, cap (chan_of m c); sys_code := ServeHTTP m |}.

(** ** The two versions side by side *)

Inductive version : Type := maxconnections_go | part_000.

Definition New_of (v : version) : Z → Z → Handler → result Middleware :=
  match v with
  | maxconnections_go => Maxconnections.New
  | part_000 => Part000.New
  end.

Definition ServeHTTP_of (v : version) : Middleware → M unit :=
  match v with
  | maxconnections_go => Maxconnections.ServeHTTP
  | part_000 => Part000.ServeHTTP
  end.

Definition sys (v : version) (m : Middleware) : system := system_of (ServeHTTP_of v) m.

(** Assignments to the exported fields after the construction:
    [m.MaxWaitInQueue = d] and [m.OverloadHandler = h]. *)
Definition set_MaxWaitInQueue (d : Z) (m : Middleware) : Middleware :=
  {| running := running m; queue := queue m; handler := handler m;
     MaxWaitInQueue := d; OverloadHandler := OverloadHandler m |}.

Definition set_OverloadHandler (h : option Handler) (m : Middleware) : Middleware :=
  {| running := running m; queue := queue m; handler := handler m;
     MaxWaitInQueue := MaxWaitInQueue m; OverloadHandler := h |}.

(** The handler a rejected request is given to; [None] when there is none to
    call ([part_000] with a nil [m.OverloadHandler]). *)
Definition overload_of (v : version) (m : Middleware) : option Handler :=
  match v with
  | maxconnections_go =>
      Some (match OverloadHandler m with None => OverloadHandler_var | Some h => h end)
  | part_000 => OverloadHandler m
  end.

(** ** The way a request took, read off its steps *)

Inductive path : Type :=
| Accepted               (* a running permit was acquired, at once or after a wait *)
| RejectedImmediate      (* no room in [m.queue] *)
| RejectedTimeout        (* the deadline won the queued wait *)
| RejectedCancelled.     (* [ctx.Done()] won the queued wait *)

Fixpoint path_of (l : list obs) : option path :=
  match l with
  | [] => None
  | SendOk m_running :: _ | RaceSent m_running :: _ => Some Accepted
  | SendFull m_queue :: _ => Some RejectedImmediate
  | RaceTimeout :: _ => Some RejectedTimeout
  | RaceCancel :: _ => Some RejectedCancelled
  | _ :: l' => path_of l'
  end.

(** The wait in the queue is over: one of its three cases was taken. *)
Definition race_over (l : list obs) : Prop :=
  RaceSent m_running ∈ l ∨ RaceTimeout ∈ l ∨ RaceCancel ∈ l.

(** What the client of a request sees of it. *)
Inductive outcome : Type :=
| DelegateInvoked (h : Handler)
| OverloadInvoked (h : Handler)
| NoResponse.

Fixpoint outcome_of (l : list obs) : outcome :=
  match l with
  | [] => NoResponse
  | Invoked Delegate h :: _ => DelegateInvoked h
  | Invoked Overload h :: _ => OverloadInvoked h
  | _ :: l' => outcome_of l'
  end.




(** ** The instance of the tests *)

(** [TestMaxConnections]: [New(2, 3, h)] with [MaxWaitInQueue = 1]. *)
Definition test_m : Middleware :=
  {| running := mkchan 2; queue := mkchan 3; handler := user_handler 0;
     MaxWaitInQueue := 1; OverloadHandler := None |}.

(** The state a schedule leads to ([init] if the schedule cannot run). *)
Definition after (S : system) (σ : list action) : state := default init (run S init σ).

(** Six requests arrive; two run the handler, three wait in the queue, one is
    given to the overload handler. *)
Definition six_arrive : list action :=
  [ Arrive; Arrive; Arrive; Arrive; Arrive; Arrive;
    Act 0 (SendOk m_running); Act 0 (Invoked Delegate (user_handler 0));
    Act 1 (SendOk m_running); Act 1 (Invoked Delegate (user_handler 0));
    Act 2 (SendFull m_running); Act 2 (SendOk m_queue); Act 2 (TimerNew (Timer 1));
    Act 3 (SendFull m_running); Act 3 (SendOk m_queue); Act 3 (TimerNew (Timer 1));
    Act 4 (SendFull m_running); Act 4 (SendOk m_queue); Act 4 (TimerNew (Timer 1));
    Act 5 (SendFull m_running); Act 5 (SendFull m_queue);
    Act 5 (Invoked Overload defaultOverloadHandler); Act 5 (Finished Returns) ].

(** Then one handler returns and a waiting request takes its place, the
    deadline of the second waiting request passes, the client of the third
    goes away, and the two running handlers return. *)
Definition six_served (v : version) : list action :=
  six_arrive ++
  [ Act 0 (Finished Returns); Act 0 (Recvd m_running);
    Act 2 (RaceSent m_running) ] ++
  match v with
  | maxconnections_go =>
      [ Act 2 (Recvd m_queue); Act 2 (TimerStopped (Timer 1));
        Act 2 (Invoked Delegate (user_handler 0));
        Act 3 RaceTimeout; Act 3 (Recvd m_queue);
        Act 3 (Invoked Overload defaultOverloadHandler); Act 3 (Finished Returns);
        Act 4 RaceCancel; Act 4 (Recvd m_queue); Act 4 (TimerStopped (Timer 1)) ]
  | part_000 =>
      [ Act 2 (TimerStopped (Timer 1)); Act 2 (Recvd m_queue);
        Act 2 (Invoked Delegate (user_handler 0));
        Act 3 RaceTimeout; Act 3 (TimerStopped (Timer 1)); Act 3 (Recvd m_queue);
        Act 3 (Invoked Overload defaultOverloadHandler); Act 3 (Finished Returns);
        Act 4 RaceCancel; Act 4 (TimerStopped (Timer 1)); Act 4 (Recvd m_queue);
        Act 4 (Invoked Overload defaultOverloadHandler); Act 4 (Finished Returns) ]
  end ++
  [ Act 1 (Finished Returns); Act 1 (Recvd m_running);
    Act 2 (Finished Panics); Act 2 (Recvd m_running) ].

(** The instance of the tests as [part_000]'s [New] makes it. *)
Definition test_m' : Middleware := set_OverloadHandler (Some OverloadHandler_var) test_m.

(** The states the schedules of the tests lead to, and a goroutine of a
    state. *)
Definition test_instance (v : version) : Middleware :=
  match v with maxconnections_go => test_m | part_000 => test_m' end.

Definition st_arrived (v : version) : state := after (sys v (test_instance v)) six_arrive.
Definition st_served (v : version) : state := after (sys v (test_instance v)) (six_served v).

Definition proc_at (s : state) (i : nat) : goroutine :=
  default {| log := []; code := Ret tt |} (procs s !! i).

(** The same instance without a deadline, and a request waiting in its
    queue. *)
Definition test_m0 (v : version) : Middleware := set_MaxWaitInQueue 0 (test_instance v).

Definition one_queued : list action :=
  [ Arrive; Arrive; Arrive;
    Act 0 (SendOk m_running); Act 1 (SendOk m_running);
    Act 2 (SendFull m_running); Act 2 (SendOk m_queue) ].

Definition st_queued (v : version) : state := after (sys v (test_m0 v)) one_queued.

(** ** The counter of the tests ([src/unnamed/part_000]) *)

(** Go's [int], taken to be 64 bits wide: the result of an addition wraps
    around. *)
Definition wrap_int (z : Z) : Z := (z + 2 ^ 63) mod 2 ^ 64 - 2 ^ 63.

Definition in_int (z : Z) : Prop := - 2 ^ 63 ≤ z < 2 ^ 63.

(** [m[k]] for a [map[int]int]: a missing key reads as zero. *)
Definition index (m : gmap Z Z) (k : Z) : Z := default 0 (m !! k).

(** The struct [counter]: its mutex makes each method one atomic step on the
    map [c.m], which is all that is kept here. *)
Definition newCounter : gmap Z Z := ∅.

(** [c.m[key] += delta] *)
Definition Add (key delta : Z) (c : gmap Z Z) : gmap Z Z :=
  <[key := wrap_int (index c key + delta)]> c.

(** The loop that copies every entry into a fresh map. *)
Definition Values (c : gmap Z Z) : gmap Z Z :=
  map_fold (λ k v m, <[k := v]> m) ∅ c.

(** The two loops of [Equal]; each returns false at the first entry that
    fails its test, in whatever order the map is ranged over. *)
Definition Equal (c m : gmap Z Z) : bool :=
  bool_decide (map_Forall (λ k v, index c k = v) m)
  && bool_decide (map_Forall (λ k v, ¬ (m !! k = None ∧ v ≠ 0)) c).

(** The values of a counter are [int]s. *)
Definition ints (c : gmap Z Z) : Prop := map_Forall (λ _ v, in_int v) c.

(** ** More to say of a request *)

(** The number of handler calls among the steps of a request. *)
Definition handler_calls (l : list obs) : nat :=
  sum_list_with (λ o, match o with Invoked _ _ => 1%nat | _ => 0%nat end) l.

(** The code waits for something outside the request: the end of the queued
    wait, or the handler it called. *)
Definition waits_outside {A : Type} (p : M A) : bool :=
  match p with
  | Select3 _ _ _ | Await _ => true
  | _ => false
  end.

(** The goroutine is in the queued wait, at the three-way select. *)
Definition in_queued_wait (g : goroutine) : Prop :=
  match code g with Select3 _ _ _ => True | _ => False end.

Global Instance in_queued_wait_dec g : Decision (in_queued_wait g).
Proof. unfold in_queued_wait. destruct (code g); apply _. Defined.

(** ** Steps that cannot be held up *)

(** The steps that no channel can hold up. *)
Definition free_step (o : obs) : Prop :=
  match o with
  | TimerNew _ | TimerStopped _ | Invoked _ _ | Finished _ | RaceCancel => True
  | _ => False
  end.

(** A step the code can make without a send: the receive, the timer call or
    the handler call it is at (a handler is taken to come back; the queued
    wait can always end by the cancellation). *)
Definition next_obs {A : Type} (p : M A) : option obs :=
  match p with
  | Recv c _ => Some (Recvd c)
  | NewTimer d _ => Some (TimerNew (Timer d))
  | Stop t _ => Some (TimerStopped t)
  | Select3 _ _ _ => Some RaceCancel
  | Invoke s h _ => Some (Invoked s h)
  | Await _ => Some (Finished Returns)
  | Ret _ | Panic | SelectSendOrDefault _ _ => None
  end.

(** ** Statements that are compared with the code *)



(** * Proofs *)

Local Open Scope nat_scope.

(** ** Runs of one goroutine *)

Lemma lrun_inv {A} (p r : M A) (l : list obs) :
  lrun p l r →
  (l = [] ∧ r = p) ∨ ∃ o q l', l = o :: l' ∧ lstep p o = Some q ∧ lrun q l' r.
Proof. destruct 1; [left|right]; eauto 10. Qed.

Lemma lrun_snoc {A} (p q r : M A) (l : list obs) (o : obs) :
  lrun p l q → lstep q o = Some r → lrun p (l ++ [o]) r.
Proof.
  induction 1 as [p|p o' q l r' Hs Hr IH]; intros Ho; simpl.
  - eapply lrun_cons; [exact Ho | apply lrun_nil].
  - eapply lrun_cons; [exact Hs | auto].
Qed.

Lemma acquired_snoc c l o : acquired c (l ++ [o]) = acquired c l + acquires c o.
Proof. unfold acquired. rewrite sum_list_with_app. simpl. lia. Qed.

Lemma released_snoc c l o : released c (l ++ [o]) = released c l + releases c o.
Proof. unfold released. rewrite sum_list_with_app. simpl. lia. Qed.

(** ** Sums over the goroutines *)

Lemma sum_list_with_insert {A} (f : A → nat) (l : list A) (i : nat) (x y : A) :
  l !! i = Some x →
  sum_list_with f (<[i := y]> l) + f x = sum_list_with f l + f y.
Proof.
  revert i. induction l as [|a l IH]; intros [|i] H; simpl in *; try discriminate.
  - injection H as ->. lia.
  - specialize (IH i H). lia.
Qed.

Lemma sum_list_with_le {A} (f g : A → nat) (l : list A) :
  Forall (λ x, f x ≤ g x) l → sum_list_with f l ≤ sum_list_with g l.
Proof. induction 1; simpl; lia. Qed.

Lemma sum_list_with_eq {A} (f g : A → nat) (l : list A) :
  Forall (λ x, f x = g x) l → sum_list_with f l = sum_list_with g l.
Proof. induction 1; simpl; lia. Qed.

Lemma sum_list_with_plus {A} (f g : A → nat) (l : list A) :
  sum_list_with (λ x, f x + g x) l = sum_list_with f l + sum_list_with g l.
Proof. induction l; simpl; lia. Qed.

Lemma length_filter_sum {A} (P : A → Prop) `{∀ x, Decision (P x)} (l : list A) :
  length (filter P l) = sum_list_with (λ x, if decide (P x) then 1 else 0) l.
Proof.
  induction l as [|a l IH]; simpl; [done|].
  rewrite filter_cons. destruct (decide (P a)); simpl; lia.
Qed.

(** ** Invariants of the system *)

Section Invariants.

Variable S : system.

(** An inductive invariant holds of every state a schedule leads to. *)
Lemma run_invariant (I : state → Prop) :
  (∀ s a s', I s → step S s a = Some s' → I s') →
  ∀ σ s s', I s → run S s σ = Some s' → I s'.
Proof.
  intros Hstep σ. induction σ as [|a σ IH]; intros s s' Hs Hrun; simpl in Hrun.
  - by injection Hrun as <-.
  - destruct (step S s a) as [s1|] eqn:E; simpl in Hrun; [|discriminate].
    eapply IH; [|exact Hrun]. eapply Hstep; eauto.
Qed.

Lemma reachable_invariant (I : state → Prop) :
  I init →
  (∀ s a s', I s → step S s a = Some s' → I s') →
  ∀ s, reachable S s → I s.
Proof. intros H0 Hstep s [σ Hσ]. eapply run_invariant; eauto. Qed.

Lemma reachable_step s a s' :
  reachable S s → step S s a = Some s' → reachable S s'.
Proof.
  intros [σ Hσ] Hs. exists (σ ++ [a]).
  revert Hσ. generalize init. induction σ as [|b σ IH]; intros s0 H; simpl in *.
  - injection H as ->. by rewrite Hs.
  - destruct (step S s0 b); simpl in *; [auto|discriminate].
Qed.

(** The three shapes of a step. *)
Lemma step_inv s a s' :
  step S s a = Some s' →
  (a = Arrive ∧ s' = {| len := len s; procs := procs s ++ [mkG [] (sys_code S)] |})
  ∨ (∃ i o g q, a = Act i o ∧ procs s !! i = Some g ∧ lstep (code g) o = Some q ∧
       enabled S s o = true ∧
       s' = {| len := λ c, len s c + acquires c o - releases c o;
               procs := <[i := mkG (log g ++ [o]) q]> (procs s) |})
  ∨ (∃ i j o c gi gj qi qj, a = Handoff i j o ∧ sends_to o = Some c ∧
       procs s !! i = Some gi ∧ procs s !! j = Some gj ∧
       lstep (code gi) o = Some qi ∧ lstep (code gj) (Recvd c) = Some qj ∧
       i ≠ j ∧ len s c = 0 ∧
       s' = {| len := len s;
               procs := <[j := mkG (log gj ++ [Recvd c]) qj]>
                          (<[i := mkG (log gi ++ [o]) qi]> (procs s)) |}).
Proof.
  destruct a as [|i o|i j o]; simpl; intros H.
  - left. by injection H as <-.
  - right; left.
    destruct (procs s !! i) as [g|] eqn:Eg; simpl in H; [|discriminate].
    unfold advance in H.
    destruct (lstep (code g) o) as [q|] eqn:Eq; simpl in H; [|discriminate].
    destruct (enabled S s o) eqn:Een; [|discriminate].
    injection H as <-. eauto 10.
  - right; right.
    destruct (sends_to o) as [c|] eqn:Ec; simpl in H; [|discriminate].
    destruct (procs s !! i) as [gi|] eqn:Egi; simpl in H; [|discriminate].
    destruct (procs s !! j) as [gj|] eqn:Egj; simpl in H; [|discriminate].
    unfold advance in H.
    destruct (lstep (code gi) o) as [qi|] eqn:Eqi; simpl in H; [|discriminate].
    destruct (lstep (code gj) (Recvd c)) as [qj|] eqn:Eqj; simpl in H; [|discriminate].
    case_bool_decide as Hc; [|discriminate].
    injection H as <-. destruct Hc. eauto 20.
Qed.

(** Every goroutine is somewhere in a run of the code of the system: its log
    is the list of steps that led to its code. *)
Lemma reachable_lrun s :
  reachable S s → Forall (λ g, lrun (sys_code S) (log g) (code g)) (procs s).
Proof.
  revert s. apply reachable_invariant; [constructor|].
  intros s a s' IH Hs.
  destruct (step_inv _ _ _ Hs) as
    [[-> ->]|[(i & o & g & q & -> & Hg & Hq & _ & ->)
             |(i & j & o & c & gi & gj & qi & qj & -> & _ & Hi & Hj & Hqi & Hqj & _ & _ & ->)]];
    simpl.
  - apply Forall_app; split; [done|]. repeat constructor.
  - apply Forall_insert; [done|]. simpl.
    eapply lrun_snoc; [|exact Hq].
    eapply (Forall_lookup_1 _ _ _ _ IH Hg).
  - apply Forall_insert; [apply Forall_insert; [done|]|]; simpl.
    + eapply lrun_snoc; [|exact Hqi]. eapply (Forall_lookup_1 _ _ _ _ IH Hi).
    + eapply lrun_snoc; [|exact Hqj]. eapply (Forall_lookup_1 _ _ _ _ IH Hj).
Qed.

(** A buffer never holds more than its capacity. *)
Lemma reachable_len_le_cap s c :
  reachable S s → len s c ≤ sys_cap S c.
Proof.
  revert s. apply (reachable_invariant (λ s, len s c ≤ sys_cap S c)); [simpl; lia|].
  intros s a s' IH Hs.
  destruct (step_inv _ _ _ Hs) as
    [[-> ->]|[(i & o & g & q & -> & Hg & Hq & Hen & ->)
             |(i & j & o & c' & gi & gj & qi & qj & -> & _ & Hi & Hj & Hqi & Hqj & _ & _ & ->)]];
    simpl; try done.
  destruct o; simpl in *; repeat case_decide; subst;
    try case_bool_decide; try discriminate; lia.
Qed.

(** The elements in a buffer are the permits acquired and not yet released. *)
Lemma reachable_balance s c :
  reachable S s → total (acquired c) s = len s c + total (released c) s.
Proof.
  revert s.
  apply (reachable_invariant
           (λ s, total (acquired c) s = len s c + total (released c) s)); [done|].
  intros s a s' IH Hs. unfold total in *.
  destruct (step_inv _ _ _ Hs) as
    [[-> ->]|[(i & o & g & q & -> & Hg & Hq & Hen & ->)
             |(i & j & o & c' & gi & gj & qi & qj & -> & Hc & Hi & Hj & Hqi & Hqj & Hij & Hlen & ->)]];
    simpl.
  - rewrite !sum_list_with_app. simpl. unfold acquired, released in *. simpl. lia.
  - pose proof (sum_list_with_insert (λ g, acquired c (log g)) _ _ _
                  (mkG (log g ++ [o]) q) Hg) as Ha.
    pose proof (sum_list_with_insert (λ g, released c (log g)) _ _ _
                  (mkG (log g ++ [o]) q) Hg) as Hr.
    simpl in Ha, Hr. rewrite acquired_snoc in Ha. rewrite released_snoc in Hr.
    destruct o; simpl in *; repeat case_decide; subst;
      try case_bool_decide; try discriminate; lia.
  - assert (Hj' : <[i := mkG (log gi ++ [o]) qi]> (procs s) !! j = Some gj)
      by (by rewrite list_lookup_insert_ne).
    pose proof (sum_list_with_insert (λ g, acquired c (log g)) _ _ _
                  (mkG (log gi ++ [o]) qi) Hi) as Ha.
    pose proof (sum_list_with_insert (λ g, released c (log g)) _ _ _
                  (mkG (log gi ++ [o]) qi) Hi) as Hr.
    pose proof (sum_list_with_insert (λ g, acquired c (log g)) _ _ _
                  (mkG (log gj ++ [Recvd c']) qj) Hj') as Ha'.
    pose proof (sum_list_with_insert (λ g, released c (log g)) _ _ _
                  (mkG (log gj ++ [Recvd c']) qj) Hj') as Hr'.
    simpl in Ha, Hr, Ha', Hr'.
    rewrite acquired_snoc in Ha, Ha'. rewrite released_snoc in Hr, Hr'.
    destruct o; simpl in *; try discriminate; injection Hc as ->;
      repeat case_decide; subst; try congruence; lia.
Qed.

End Invariants.

(** ** Symbolic execution of one goroutine *)

(** The steps a piece of code can make, read off its first instruction. *)
Lemma lstep_inv {A} (p q : M A) (o : obs) :
  lstep p o = Some q →
  match p with
  | Ret _ | Panic => False
  | SelectSendOrDefault c k => (o = SendOk c ∧ q = k true) ∨ (o = SendFull c ∧ q = k false)
  | Recv c k => o = Recvd c ∧ q = k
  | NewTimer d k => o = TimerNew (Timer d) ∧ q = k (Timer d)
  | Stop t k => o = TimerStopped t ∧ q = k
  | Select3 c tc k =>
      (o = RaceSent c ∧ q = k WonSend)
      ∨ (o = RaceTimeout ∧ may_fire tc = true ∧ q = k WonTimeout)
      ∨ (o = RaceCancel ∧ q = k WonDone)
  | Invoke s h k => o = Invoked s h ∧ q = k
  | Await k => (o = Finished Returns ∧ q = k Returns) ∨ (o = Finished Panics ∧ q = k Panics)
  end.
Proof.
  destruct p, o; simpl; try discriminate; intros H;
    repeat (case_decide; [subst|discriminate H]);
    try (destruct (may_fire tc) eqn:?; [|discriminate H]);
    try match goal with r : call_result |- _ => destruct r end;
    injection H as <-; eauto 6.
Qed.

Ltac lstep_step H :=
  apply lstep_inv in H;
  unfold call, recv, stop, select3, newTimer, select_send_default in H;
  cbn in H;
  lazymatch type of H with
  | match _ with _ => _ end => fail "the code is not in head normal form"
  | _ => idtac
  end;
  destruct_or? H; destruct_and? H; simplify_eq.

(** Follow every run of a piece of code to every place it can stop. *)
Ltac symex :=
  repeat match goal with
    | H : lrun ?p ?l ?r |- _ =>
        let o := fresh "o" in let q := fresh "q" in let l' := fresh "l" in
        let Hs := fresh "Hs" in let Hr := fresh "Hr" in
        apply lrun_inv in H;
        destruct H as [[Hs Hr]|(o & q & l' & Hs & Hr)];
        [subst|destruct Hr as [Hr H]; subst; lstep_step Hr]
    end.

(** Membership in a log that is written out. *)
Ltac log_cases :=
  repeat match goal with
    | H : _ ∈ [] |- _ => exfalso; exact (proj1 (elem_of_nil _) H)
    | H : _ ∈ _ :: _ |- _ =>
        let H' := fresh in
        apply elem_of_cons in H; destruct H as [H'|H']; [discriminate H' || simplify_eq|]
    end.

Ltac in_log :=
  log_cases;
  try (unfold race_over; naive_solver eauto 15 using list_elem_of_here, list_elem_of_further).

(** Every run of [ServeHTTP], of either version and for every setting of the
    instance. *)
Ltac versions v m H :=
  destruct v; cbn [overload_of];
  unfold ServeHTTP_of, Maxconnections.ServeHTTP, Part000.ServeHTTP,
    Part000.enqueueRunning in H;
  destruct (0 <? MaxWaitInQueue m)%Z eqn:?; destruct (OverloadHandler m) eqn:?;
  symex.

(** ** What holds at every point of a request *)

(** A request acquires each kind of permit at most once and releases only what
    it has acquired. *)
Lemma permits_at_most_once v m l p c :
  lrun (ServeHTTP_of v m) l p →
  released c l ≤ acquired c l ∧ acquired c l ≤ 1.
Proof. intros H. versions v m H; destruct c; vm_compute; lia. Qed.

(** The running permit is given back after the handler has come back, the
    queue permit after the queued wait is over. *)
Lemma release_occasions v m l p :
  lrun (ServeHTTP_of v m) l p →
  (released m_running l = 1 → ∃ r, Finished r ∈ l)
  ∧ (released m_queue l = 1 → race_over l).
Proof.
  intros H. versions v m H.
  all: split; intros Hrel; vm_compute in Hrel; try discriminate Hrel.
  all: in_log.
Qed.

(** A request that has left [ServeHTTP] has given back all it acquired, on
    one of the four ways through the function. *)
Lemma finished_balanced v m l p :
  lrun (ServeHTTP_of v m) l p →
  finished p = true →
  (∀ c, released c l = acquired c l)
  ∧ match path_of l with
    | Some Accepted => acquired m_running l = 1 ∧ ∃ r, Finished r ∈ l
    | Some RejectedImmediate => acquired m_running l = 0 ∧ acquired m_queue l = 0
    | Some RejectedTimeout | Some RejectedCancelled =>
        acquired m_running l = 0 ∧ acquired m_queue l = 1
    | None => False
    end.
Proof.
  intros H. versions v m H; intros Hf; try discriminate Hf.
  all: split; [intros []; reflexivity|].
  all: cbn; split; try reflexivity.
  all: in_log.
Qed.

(** A goroutine at a receive holds a permit of that channel. *)
Lemma receiver_holds v m l p c q :
  lrun (ServeHTTP_of v m) l p →
  lstep p (Recvd c) = Some q →
  released c l < acquired c l.
Proof.
  intros H. versions v m H; intros Hq; try discriminate Hq.
  all: destruct c; try discriminate Hq; vm_compute; lia.
Qed.

(** ** From one goroutine to the system *)

Lemma reachable_local v m s (Φ : list obs → M unit → Prop) :
  (∀ l p, lrun (ServeHTTP_of v m) l p → Φ l p) →
  reachable (sys v m) s →
  ∀ g, g ∈ procs s → Φ (log g) (code g).
Proof.
  intros HΦ Hs g Hg.
  pose proof (reachable_lrun _ _ Hs) as Hall.
  rewrite Forall_forall in Hall. apply HΦ, (Hall g Hg).
Qed.

Lemma total_held s c :
  (∀ g, g ∈ procs s → released c (log g) ≤ acquired c (log g)) →
  total (held c) s + total (released c) s = total (acquired c) s.
Proof.
  unfold total, held. induction (procs s) as [|g gs IH]; intros H; simpl; [done|].
  pose proof (H g ltac:(left)) as Hg.
  assert (∀ g, g ∈ gs → released c (log g) ≤ acquired c (log g)) as Hgs
      by (intros; apply H; by right).
  specialize (IH Hgs). lia.
Qed.

Lemma after_reachable S σ :
  is_Some (run S init σ) → reachable S (after S σ).
Proof. intros [s Hs]. exists σ. unfold after. by rewrite Hs. Qed.

(** * The properties of the specification *)

(** ** C1 *)

(** C1.  In every state the system can reach, every request has acquired at
    most one permit of each pool and released no more than it acquired; the
    running permit is released only after the handler has come back, the queue
    permit only after the queued wait is over (by a free slot, the deadline or
    the cancellation).  A request that has left [ServeHTTP] has released each
    permit it acquired, on exactly one of the ways through the function:
    accepted and completed (the handler came back, by a return or a panic),
    timed out in the queue, cancelled in the queue, or rejected at once, in
    which case it never acquired a permit.  When all requests have left
    [ServeHTTP], the acquisitions and the releases of each pool are equal in
    number and both buffers are empty. *)
Theorem C1_every_permit_released_exactly_once (v : version) (m : Middleware) (s : state) :
  reachable (sys v m) s →
  (∀ g c, g ∈ procs s →
     released c (log g) ≤ acquired c (log g) ≤ 1
     ∧ (released m_running (log g) = 1 → ∃ r, Finished r ∈ log g)
     ∧ (released m_queue (log g) = 1 → race_over (log g))
     ∧ (finished (code g) = true →
        released c (log g) = acquired c (log g)
        ∧ match path_of (log g) with
          | Some Accepted => acquired m_running (log g) = 1 ∧ ∃ r, Finished r ∈ log g
          | Some RejectedImmediate =>
              acquired m_running (log g) = 0 ∧ acquired m_queue (log g) = 0
          | Some RejectedTimeout | Some RejectedCancelled =>
              acquired m_running (log g) = 0 ∧ acquired m_queue (log g) = 1
          | None => False
          end))
  ∧ (quiescent s →
     ∀ c, total (acquired c) s = total (released c) s ∧ len s c = 0).
Proof.
  intros Hs. split.
  - intros g c Hg.
    pose proof (reachable_lrun _ _ Hs) as Hall. rewrite Forall_forall in Hall.
    specialize (Hall g Hg). simpl in Hall.
    destruct (release_occasions _ _ _ _ Hall) as [Hr Hq].
    repeat split; try apply (permits_at_most_once _ _ _ _ c Hall); auto.
    + apply (finished_balanced _ _ _ _ Hall H).
    + apply (finished_balanced _ _ _ _ Hall H).
  - intros Hquiet c.
    assert (total (acquired c) s = total (released c) s) as Heq.
    { unfold total. apply sum_list_with_eq. rewrite Forall_forall. intros g Hg.
      unfold quiescent in Hquiet. rewrite Forall_forall in Hquiet.
      pose proof (reachable_lrun _ _ Hs) as Hall. rewrite Forall_forall in Hall.
      symmetry. apply (finished_balanced _ _ _ _ (Hall g Hg) (Hquiet g Hg)). }
    split; [exact Heq|].
    pose proof (reachable_balance _ s c Hs). lia.
Qed.

Lemma C1_witness :
  reachable (sys part_000 test_m') (st_served part_000)
  ∧ quiescent (st_served part_000)
  ∧ total (acquired m_running) (st_served part_000)
    = total (released m_running) (st_served part_000)
  ∧ len (st_served part_000) m_running = 0.
Proof.
  assert (reachable (sys part_000 test_m') (st_served part_000)) as H.
  { apply after_reachable. vm_compute. eauto. }
  assert (quiescent (st_served part_000)) as Hq.
  { vm_compute. repeat constructor. }
  destruct (C1_every_permit_released_exactly_once part_000 test_m' _ H) as [_ Hall].
  exact (conj H (conj Hq (Hall Hq m_running))).
Defined.

(** ** C3 *)

(** What [New] returns when it returns. *)
Lemma New_of_Ok v maxRunning maxInQueue h m :
  New_of v maxRunning maxInQueue h = Ok m →
  (0 ≤ maxRunning)%Z ∧ (0 ≤ maxInQueue)%Z
  ∧ cap (running m) = Z.to_nat maxRunning ∧ cap (queue m) = Z.to_nat maxInQueue.
Proof.
  destruct v; simpl; unfold Maxconnections.New, Part000.New, make_chan;
    destruct (Z.ltb_spec maxRunning 0); try discriminate;
    destruct (Z.ltb_spec maxInQueue 0); try discriminate;
    intros [= <-]; simpl; auto.
Qed.

(** While the delegate handler runs, and at the moment it is called, the
    request holds one running permit and no queue permit. *)
Lemma delegate_holds_running v m l p h :
  lrun (ServeHTTP_of v m) l p →
  last l = Some (Invoked Delegate h) ∨ is_Some (lstep p (Invoked Delegate h)) →
  held m_running l = 1 ∧ held m_queue l = 0.
Proof.
  intros H. versions v m H; (intros [Hl|[q Hq]]; [|lstep_step Hq]);
    try discriminate Hl; split; reflexivity.
Qed.

(** C3.  For an instance made by [New(maxRunning, maxInQueue, h)], whatever is
    then assigned to [MaxWaitInQueue] and [OverloadHandler], in every state
    the system can reach and for each pool: the buffer of the channel holds
    at most the capacity given to [New], and it holds exactly the permits the
    requests hold at that instant.  In particular no more than [maxRunning]
    requests are inside the delegate handler. *)
Theorem C3_occupancy_bounded
    (v : version) (maxRunning maxInQueue : Z) (h : Handler) (m0 : Middleware)
    (d : Z) (oh : option Handler) (s : state) :
  New_of v maxRunning maxInQueue h = Ok m0 →
  reachable (sys v (set_OverloadHandler oh (set_MaxWaitInQueue d m0))) s →
  (Z.of_nat (len s m_running) ≤ maxRunning)%Z
  ∧ (Z.of_nat (len s m_queue) ≤ maxInQueue)%Z
  ∧ total (held m_running) s = len s m_running
  ∧ total (held m_queue) s = len s m_queue
  ∧ (Z.of_nat (length (filter (inside Delegate) (procs s))) ≤ maxRunning)%Z.
Proof.
  intros HNew Hs.
  destruct (New_of_Ok _ _ _ _ _ HNew) as (Hr & Hq & Hcr & Hcq).
  set (m := set_OverloadHandler oh (set_MaxWaitInQueue d m0)) in *.
  pose proof (reachable_len_le_cap _ s m_running Hs) as Hlr.
  pose proof (reachable_len_le_cap _ s m_queue Hs) as Hlq.
  simpl in Hlr, Hlq. rewrite Hcr in Hlr. rewrite Hcq in Hlq.
  assert (∀ c, total (held c) s = len s c) as Hheld.
  { intros c. pose proof (reachable_balance _ s c Hs) as Hb.
    pose proof (total_held s c) as Ht.
    assert (∀ g, g ∈ procs s → released c (log g) ≤ acquired c (log g)) as Hle.
    { apply (reachable_local v m s (λ l _, released c l ≤ acquired c l)); [|done].
      intros l p Hl. apply (permits_at_most_once _ _ _ _ c Hl). }
    specialize (Ht Hle). lia. }
  assert (length (filter (inside Delegate) (procs s)) ≤ len s m_running) as Hin.
  { rewrite <- (Hheld m_running), length_filter_sum. unfold total.
    apply sum_list_with_le. rewrite Forall_forall. intros g Hg.
    destruct (decide (inside Delegate g)) as [[h' Hh']|]; [|lia].
    pose proof (reachable_local v m s
                  (λ l p, last l = Some (Invoked Delegate h') → held m_running l = 1)) as HL.
    rewrite HL; auto.
    intros l p Hl Hlast. eapply delegate_holds_running; eauto. }
  repeat split; try apply Hheld; lia.
Qed.

Lemma C3_witness :
  New_of maxconnections_go 2 3 (user_handler 0) = Ok (set_MaxWaitInQueue 0 test_m)
  ∧ reachable (sys maxconnections_go
                 (set_OverloadHandler None (set_MaxWaitInQueue 1 (set_MaxWaitInQueue 0 test_m))))
      (after (sys maxconnections_go test_m) six_arrive)
  ∧ (Z.of_nat (len (after (sys maxconnections_go test_m) six_arrive) m_running) ≤ 2)%Z
  ∧ (Z.of_nat (len (after (sys maxconnections_go test_m) six_arrive) m_queue) ≤ 3)%Z.
Proof.
  assert (reachable (sys maxconnections_go
                 (set_OverloadHandler None (set_MaxWaitInQueue 1 (set_MaxWaitInQueue 0 test_m))))
      (after (sys maxconnections_go test_m) six_arrive)) as H.
  { apply (after_reachable (sys maxconnections_go test_m)). vm_compute. eauto. }
  split; [reflexivity|]. split; [exact H|].
  pose proof (C3_occupancy_bounded maxconnections_go 2 3 (user_handler 0)
                (set_MaxWaitInQueue 0 test_m) 1 None _ eq_refl H) as (H1 & H2 & _).
  exact (conj H1 H2).
Defined.

(** ** C4 *)

(** At the call of the overload handler and ever after, the request holds no
    permit. *)
Lemma overload_holds_nothing v m l p h c :
  lrun (ServeHTTP_of v m) l p →
  Invoked Overload h ∈ l ∨ is_Some (lstep p (Invoked Overload h)) →
  held c l = 0.
Proof.
  intros H. versions v m H; (intros [Hl|[q Hq]]; [|lstep_step Hq]);
    try (destruct c; reflexivity); in_log.
Qed.

(** The steps into and out of a handler leave the buffers as they are. *)
Lemma handler_steps_keep_len S s i o s' :
  step S s (Act i o) = Some s' →
  (∃ r h, o = Invoked r h) ∨ (∃ r, o = Finished r) →
  ∀ c, len s' c = len s c.
Proof.
  intros Hs Ho c.
  destruct (step_inv _ _ _ _ Hs) as
    [[? _]|[(i' & o' & g & q & [= <- <-] & _ & _ & _ & ->)|(? & ? & ? & ? & ? & ? & ? & ? & ? & _)]];
    try discriminate.
  destruct Ho as [(r & h & ->)|(r & ->)]; simpl; lia.
Qed.

(** C4.  In every state the system can reach: a request that is given to the
    overload handler holds no permit at the call, nor at any later moment; a
    request that has left [ServeHTTP] on one of the three rejected ways holds
    no permit; and the steps into and out of the overload handler do not
    change the contents of either buffer. *)
Theorem C4_rejected_holds_no_permit (v : version) (m : Middleware) (s : state) :
  reachable (sys v m) s →
  (∀ g c h, g ∈ procs s →
     (Invoked Overload h ∈ log g ∨ is_Some (lstep (code g) (Invoked Overload h)) →
      held c (log g) = 0)
     ∧ (finished (code g) = true →
        path_of (log g) ≠ Some Accepted →
        held c (log g) = 0))
  ∧ (∀ i o s', step (sys v m) s (Act i o) = Some s' →
       (∃ h, o = Invoked Overload h) ∨ (∃ r, o = Finished r) →
       ∀ c, len s' c = len s c).
Proof.
  intros Hs. split.
  - intros g c h Hg.
    pose proof (reachable_lrun _ _ Hs) as Hall. rewrite Forall_forall in Hall.
    specialize (Hall g Hg). simpl in Hall. split.
    + apply (overload_holds_nothing _ _ _ _ _ _ Hall).
    + intros Hf _. unfold held.
      destruct (finished_balanced _ _ _ _ Hall Hf) as [Hb _]. rewrite Hb. lia.
  - intros i o s' Hstep Ho. eapply handler_steps_keep_len; [exact Hstep|].
    destruct Ho as [[h ->]|[r ->]]; eauto.
Qed.

(** ** C5 *)

(** An accepted request keeps its running permit until the handler has come
    back. *)
Lemma accepted_holds_running v m l p :
  lrun (ServeHTTP_of v m) l p →
  path_of l = Some Accepted →
  (∀ r, Finished r ∉ l) →
  held m_running l = 1.
Proof.
  intros H. versions v m H; intros Hp Hf; try discriminate Hp; try reflexivity.
  all: exfalso; first [apply (Hf Returns); in_log | apply (Hf Panics); in_log].
Qed.

(** Once the delegate handler has been called, the queue permit is gone for
    good. *)
Lemma delegate_without_queue_permit v m l p h :
  lrun (ServeHTTP_of v m) l p →
  Invoked Delegate h ∈ l →
  held m_queue l = 0.
Proof. intros H. versions v m H; intros Hl; try reflexivity; in_log. Qed.

(** C5.  In every state the system can reach, a request holds at most one
    queue permit and at most one running permit; an accepted request holds
    exactly one running permit until its handler has come back; and when the
    delegate handler is called, while it runs and ever after, the request
    holds no queue permit, so that a request promoted from the queue does not
    hold both permits once it runs the handler. *)
Theorem C5_permits_per_request (v : version) (m : Middleware) (s : state) :
  reachable (sys v m) s →
  ∀ g, g ∈ procs s →
    held m_queue (log g) ≤ 1
    ∧ held m_running (log g) ≤ 1
    ∧ (path_of (log g) = Some Accepted → (∀ r, Finished r ∉ log g) →
       held m_running (log g) = 1)
    ∧ (∀ h, last (log g) = Some (Invoked Delegate h)
            ∨ is_Some (lstep (code g) (Invoked Delegate h)) →
       held m_running (log g) = 1 ∧ held m_queue (log g) = 0)
    ∧ (∀ h, Invoked Delegate h ∈ log g → held m_queue (log g) = 0).
Proof.
  intros Hs g Hg.
  pose proof (reachable_lrun _ _ Hs) as Hall. rewrite Forall_forall in Hall.
  specialize (Hall g Hg). simpl in Hall.
  pose proof (permits_at_most_once _ _ _ _ m_queue Hall) as [? ?].
  pose proof (permits_at_most_once _ _ _ _ m_running Hall) as [? ?].
  unfold held at 1 2. repeat split; try lia.
  - apply (accepted_holds_running _ _ _ _ Hall).
  - eapply delegate_holds_running; eauto.
  - eapply delegate_holds_running; eauto.
  - intros h. apply (delegate_without_queue_permit _ _ _ _ _ Hall).
Qed.

(** ** Receives never block *)

(** A goroutine holds no more permits of a pool than the buffer has
    elements. *)
Lemma held_le_len v m s g c :
  reachable (sys v m) s → g ∈ procs s → held c (log g) ≤ len s c.
Proof.
  intros Hs Hg.
  pose proof (reachable_balance _ s c Hs) as Hb.
  assert (∀ g, g ∈ procs s → released c (log g) ≤ acquired c (log g)) as Hle.
  { apply (reachable_local v m s (λ l _, released c l ≤ acquired c l)); [|done].
    intros l p Hl. apply (permits_at_most_once _ _ _ _ c Hl). }
  pose proof (total_held s c Hle) as Ht.
  pose proof (sum_list_with_in g (λ g, held c (log g)) (procs s) Hg) as Hin.
  unfold total in *. lia.
Qed.

Lemma next_obs_step {A} (p : M A) (o : obs) :
  next_obs p = Some o →
  is_Some (lstep p o) ∧ (free_step o ∨ ∃ c, o = Recvd c).
Proof.
  destruct p; simpl; intros [= <-]; simpl;
    rewrite ?decide_True by reflexivity; eauto.
Qed.

(** A goroutine that can make a free step, or a receive, makes it in the
    system. *)
Lemma step_enabled v m s i g o q :
  reachable (sys v m) s →
  procs s !! i = Some g →
  lstep (code g) o = Some q →
  free_step o ∨ (∃ c, o = Recvd c) →
  is_Some (step (sys v m) s (Act i o)).
Proof.
  intros Hs Hi Hq Ho. simpl. rewrite Hi. simpl. unfold advance. rewrite Hq. simpl.
  assert (enabled (sys v m) s o = true) as ->; [|eauto].
  destruct Ho as [Ho|[c ->]]; [destruct o; simpl in *; done|].
  simpl. apply bool_decide_eq_true.
  assert (g ∈ procs s) as Hg by (eapply list_elem_of_lookup_2; eauto).
  pose proof (held_le_len v m s g c Hs Hg) as Hh.
  pose proof (reachable_lrun _ _ Hs) as Hall. rewrite Forall_forall in Hall.
  pose proof (receiver_holds _ _ _ _ _ _ (Hall g Hg) Hq). unfold held in Hh. lia.
Qed.

(** The hand-off to a parked receiver never happens: a goroutine that is at
    a receive holds a permit, so the buffer it receives from is not empty. *)
Lemma handoff_never_enabled v m s i j o :
  reachable (sys v m) s → step (sys v m) s (Handoff i j o) = None.
Proof.
  intros Hs. destruct (step (sys v m) s (Handoff i j o)) as [s'|] eqn:E; [|done].
  destruct (step_inv _ _ _ _ E) as
    [[? _]|[(? & ? & ? & ? & ? & _)
           |(i' & j' & o' & c & gi & gj & qi & qj & _ & _ & _ & Hj & _ & Hqj & _ & Hlen & _)]];
    try discriminate.
  assert (gj ∈ procs s) as Hg by (eapply list_elem_of_lookup_2; eauto).
  pose proof (held_le_len v m s gj c Hs Hg) as Hh.
  pose proof (reachable_lrun _ _ Hs) as Hall. rewrite Forall_forall in Hall.
  pose proof (receiver_holds _ _ _ _ _ _ (Hall gj Hg) Hqj). unfold held in Hh. lia.
Qed.

(** ** C2 *)



(** ** C7 *)

(** Without a positive [MaxWaitInQueue] no timer is made and the
    [case <-timeout] is never taken. *)
Lemma no_deadline_run v m l p :
  lrun (ServeHTTP_of v m) l p →
  (0 <? MaxWaitInQueue m)%Z = false →
  (∀ t, TimerNew t ∉ l) ∧ (RaceTimeout ∉ l)
  ∧ lstep p RaceTimeout = None
  ∧ (∀ d, lstep p (TimerNew (Timer d)) = None)
  ∧ (race_over l → RaceSent m_running ∈ l ∨ RaceCancel ∈ l).
Proof.
  intros H. versions v m H; intros Hd; try discriminate Hd.
  all: split; [intros t Ht; log_cases|].
  all: split; [intros Ht; log_cases|].
  all: split; [reflexivity|].
  all: split; [reflexivity|].
  all: unfold race_over; intros [Hr|[Hr|Hr]]; log_cases; in_log.
Qed.

(** C7.  For an instance with [MaxWaitInQueue = 0], in every state the system
    can reach and for every request: no timer has been made and none can be
    made, the [case <-timeout] of the queued wait has not been taken and
    cannot be taken, and a queued wait that is over was ended by a running
    slot or by the cancellation. *)
Theorem C7_zero_wait_has_no_deadline (v : version) (m : Middleware) (s : state) :
  MaxWaitInQueue m = 0%Z →
  reachable (sys v m) s →
  ∀ i g, procs s !! i = Some g →
    (∀ t, TimerNew t ∉ log g)
    ∧ (RaceTimeout ∉ log g)
    ∧ step (sys v m) s (Act i RaceTimeout) = None
    ∧ (∀ d, step (sys v m) s (Act i (TimerNew (Timer d))) = None)
    ∧ path_of (log g) ≠ Some RejectedTimeout
    ∧ (race_over (log g) → RaceSent m_running ∈ log g ∨ RaceCancel ∈ log g).
Proof.
  intros Hd Hs i g Hi.
  assert (g ∈ procs s) as Hg by (eapply list_elem_of_lookup_2; eauto).
  pose proof (reachable_lrun _ _ Hs) as Hall. rewrite Forall_forall in Hall.
  assert ((0 <? MaxWaitInQueue m)%Z = false) as Hd' by (rewrite Hd; reflexivity).
  destruct (no_deadline_run _ _ _ _ (Hall g Hg) Hd') as (H1 & H2 & H3 & H4 & H5).
  repeat split; try assumption.
  - simpl. rewrite Hi. simpl. unfold advance. simpl in H3. by rewrite H3.
  - intros d. simpl. rewrite Hi. simpl. unfold advance. simpl in H4. by rewrite H4.
  - intros Hp. apply H2. clear -Hp.
    induction (log g) as [|o l IH]; [discriminate|].
    destruct o as [[]|[]| | | |[]| | | |]; simpl in Hp; try discriminate;
      first [left | right; auto].
Qed.

Lemma C7_witness :
  MaxWaitInQueue (test_m0 part_000) = 0%Z
  ∧ reachable (sys part_000 (test_m0 part_000)) (st_queued part_000)
  ∧ procs (st_queued part_000) !! 2 = Some (proc_at (st_queued part_000) 2)
  ∧ step (sys part_000 (test_m0 part_000)) (st_queued part_000) (Act 2 RaceTimeout) = None.
Proof.
  assert (reachable (sys part_000 (test_m0 part_000)) (st_queued part_000)) as Hr.
  { apply after_reachable. vm_compute. eauto. }
  pose proof (C7_zero_wait_has_no_deadline part_000 (test_m0 part_000) _ eq_refl Hr
                2 (proc_at (st_queued part_000) 2) eq_refl) as (_ & _ & H3 & _).
  exact (conj eq_refl (conj Hr (conj eq_refl H3))).
Defined.

(** ** C8 *)

(** With a positive [MaxWaitInQueue], after the queued wait was ended by a
    running slot or by the cancellation. *)
Lemma armed_timer_run v m l p :
  lrun (ServeHTTP_of v m) l p →
  (0 <? MaxWaitInQueue m)%Z = true →
  RaceSent m_running ∈ l ∨ RaceCancel ∈ l →
  TimerNew (Timer (MaxWaitInQueue m)) ∈ l
  ∧ (finished p = true ∨ (∃ r h, Invoked r h ∈ l ∨ is_Some (lstep p (Invoked r h))) →
     TimerStopped (Timer (MaxWaitInQueue m)) ∈ l)
  ∧ (finished p = false → is_Some (next_obs p)).
Proof.
  intros H. versions v m H; intros Hd; try discriminate Hd.
  all: intros [Hr|Hr]; log_cases.
  all: split; [in_log|].
  all: split; [|intros Hf; try discriminate Hf; simpl; eauto].
  all: intros [Hf|(r & h' & [Hi|[q' Hq]])]; try discriminate Hf; try lstep_step Hq;
    in_log.
Qed.

(** A timer is stopped only after the queued wait is over. *)
Lemma stop_after_race v m l p t :
  lrun (ServeHTTP_of v m) l p → TimerStopped t ∈ l → race_over l.
Proof. intros H. versions v m H; intros Ht; in_log. Qed.

(** C8.  For an instance with [MaxWaitInQueue > 0], in every state the system
    can reach and for every request whose queued wait was ended by a running
    slot or by the cancellation: a timer was armed for [MaxWaitInQueue]; the
    request is never blocked afterwards; and when it calls a handler, and when
    it has left [ServeHTTP], that timer has been stopped.  A timer is never
    stopped before the queued wait is over. *)
Theorem C8_armed_timer_is_stopped (v : version) (m : Middleware) (s : state) :
  (0 < MaxWaitInQueue m)%Z →
  reachable (sys v m) s →
  ∀ i g, procs s !! i = Some g →
    (∀ t, TimerStopped t ∈ log g → race_over (log g))
    ∧ (RaceSent m_running ∈ log g ∨ RaceCancel ∈ log g →
       TimerNew (Timer (MaxWaitInQueue m)) ∈ log g
       ∧ (finished (code g) = true
          ∨ (∃ r h, Invoked r h ∈ log g ∨ is_Some (lstep (code g) (Invoked r h))) →
          TimerStopped (Timer (MaxWaitInQueue m)) ∈ log g)
       ∧ (finished (code g) = false → ∃ o, is_Some (step (sys v m) s (Act i o)))).
Proof.
  intros Hd Hs i g Hi.
  assert (g ∈ procs s) as Hg by (eapply list_elem_of_lookup_2; eauto).
  pose proof (reachable_lrun _ _ Hs) as Hall. rewrite Forall_forall in Hall.
  assert ((0 <? MaxWaitInQueue m)%Z = true) as Hd' by (apply Z.ltb_lt; lia).
  split.
  - intros t. apply (stop_after_race _ _ _ _ _ (Hall g Hg)).
  - intros Hr.
    destruct (armed_timer_run _ _ _ _ (Hall g Hg) Hd' Hr) as (H1 & H2 & H3).
    repeat split; try assumption.
    intros Hf. destruct (H3 Hf) as (o & Ho). exists o.
    destruct (next_obs_step _ _ Ho) as [[q Hq] Hfree].
    eapply step_enabled; eauto.
Qed.

Lemma C8_witness :
  (0 < MaxWaitInQueue (test_instance maxconnections_go))%Z
  ∧ reachable (sys maxconnections_go (test_instance maxconnections_go))
      (st_served maxconnections_go)
  ∧ procs (st_served maxconnections_go) !! 4 = Some (proc_at (st_served maxconnections_go) 4)
  ∧ RaceCancel ∈ log (proc_at (st_served maxconnections_go) 4)
  ∧ finished (code (proc_at (st_served maxconnections_go) 4)) = true
  ∧ TimerStopped (Timer 1) ∈ log (proc_at (st_served maxconnections_go) 4).
Proof.
  assert (reachable (sys maxconnections_go (test_instance maxconnections_go))
            (st_served maxconnections_go)) as Hr.
  { apply after_reachable. vm_compute. eauto. }
  assert (RaceCancel ∈ log (proc_at (st_served maxconnections_go) 4)) as Hc.
  { vm_compute. do 3 apply list_elem_of_further. apply list_elem_of_here. }
  pose proof (C8_armed_timer_is_stopped maxconnections_go
                (test_instance maxconnections_go) _ ltac:(reflexivity) Hr
                4 (proc_at (st_served maxconnections_go) 4) eq_refl) as [_ H].
  destruct (H (or_intror Hc)) as (_ & H2 & _).
  exact (conj eq_refl (conj Hr (conj eq_refl (conj Hc (conj eq_refl (H2 (or_introl eq_refl))))))).
Defined.

(** ** C6 *)

Lemma acquired_zero_no_send c l : acquired c l = 0 → SendOk c ∉ l.
Proof.
  induction l as [|o l IH]; intros H Hin; [by apply elem_of_nil in Hin|].
  unfold acquired in *. simpl in H.
  apply elem_of_cons in Hin as [<-|Hin].
  - simpl in H. rewrite decide_True in H by reflexivity. lia.
  - apply IH; [lia|exact Hin].
Qed.

(** With a queue of capacity zero no request ever gets a queue permit. *)
Lemma queue_never_acquired v m s :
  cap (queue m) = 0 →
  reachable (sys v m) s →
  Forall (λ g, acquired m_queue (log g) = 0) (procs s).
Proof.
  intros Hcap Hs.
  cut (reachable (sys v m) s ∧ Forall (λ g, acquired m_queue (log g) = 0) (procs s));
    [tauto|].
  revert s Hs.
  apply (reachable_invariant (sys v m)
           (λ s, reachable (sys v m) s
                 ∧ Forall (λ g, acquired m_queue (log g) = 0) (procs s))).
  { split; [by exists []|constructor]. }
  intros s a s' [Hr IH] Hstep. split; [eapply reachable_step; eauto|].
  pose proof (reachable_lrun _ _ Hr) as Hall.
  destruct (step_inv _ _ _ _ Hstep) as
    [[-> ->]|[(i & o & g & q & -> & Hg & Hq & Hen & ->)
             |(i & j & o & c & gi & gj & qi & qj & -> & Hc & Hi & Hj & Hqi & Hqj & Hij & Hlen & ->)]];
    simpl.
  - apply Forall_app; split; [done|]. repeat constructor.
  - apply Forall_insert; [done|]. simpl. rewrite acquired_snoc.
    rewrite (Forall_lookup_1 _ _ _ _ IH Hg).
    destruct o as [c|c|c|t|t|c| | |r h|r]; simpl in *; try reflexivity;
      destruct c; simpl in *; try reflexivity;
      rewrite Hcap in Hen; case_bool_decide; try discriminate; lia.
  - assert (c = m_running) as ->.
    { destruct c; [reflexivity|exfalso].
      pose proof (receiver_holds _ _ _ _ _ _ (Forall_lookup_1 _ _ _ _ Hall Hj) Hqj).
      pose proof (Forall_lookup_1 _ _ _ _ IH Hj) as H0. simpl in H0. lia. }
    apply Forall_insert; [apply Forall_insert; [done|]|]; simpl; rewrite acquired_snoc.
    + rewrite (Forall_lookup_1 _ _ _ _ IH Hi).
      destruct o; simpl in *; try discriminate; injection Hc as ->; reflexivity.
    + rewrite (Forall_lookup_1 _ _ _ _ IH Hj). reflexivity.
Qed.

(** A request that found [m.running] full and gets no queue permit goes
    straight to the overload handler. *)
Lemma overflow_run v m l p ov :
  lrun (ServeHTTP_of v m) l p →
  overload_of v m = Some ov →
  acquired m_queue l = 0 →
  SendFull m_running ∈ l →
  (∃ r, l `prefix_of` [SendFull m_running; SendFull m_queue; Invoked Overload ov; Finished r])
  ∧ (finished p = false → is_Some (lstep p (SendFull m_queue)) ∨ is_Some (next_obs p))
  ∧ (finished p = true →
     outcome_of l = OverloadInvoked ov ∧ path_of l = Some RejectedImmediate).
Proof.
  intros H. versions v m H; intros Hov; try discriminate Hov;
    injection Hov as <-; intros Ha; try discriminate Ha; intros Hin; log_cases.
  all: split; [first [exists Returns; by eexists | exists Panics; by eexists]|].
  all: split; intros Hf; try discriminate Hf; simpl; eauto.
Qed.

(** C6.  For an instance made by [New] with [maxInQueue = 0], whatever is then
    assigned to [MaxWaitInQueue] and [OverloadHandler], in every state the
    system can reach: no request has got a queue permit and none can get one,
    neither by a buffered send nor by a hand-off to a receiver; and a request
    that found [m.running] full does nothing but take the default case of the
    second select, call the overload handler and come back from it, is never
    blocked on that way, and has been given to the overload handler when it
    has left [ServeHTTP].  (In the version of [src/unnamed/part_000] the
    overload handler is [m.OverloadHandler], which is taken not to be nil.) *)
Theorem C6_zero_queue_rejects_overflow
    (v : version) (maxRunning : Z) (h : Handler) (m0 : Middleware)
    (d : Z) (oh : option Handler) (s : state) :
  New_of v maxRunning 0 h = Ok m0 →
  reachable (sys v (set_OverloadHandler oh (set_MaxWaitInQueue d m0))) s →
  ∀ i g, procs s !! i = Some g →
    (SendOk m_queue ∉ log g)
    ∧ acquired m_queue (log g) = 0
    ∧ step (sys v (set_OverloadHandler oh (set_MaxWaitInQueue d m0))) s
        (Act i (SendOk m_queue)) = None
    ∧ (∀ j, step (sys v (set_OverloadHandler oh (set_MaxWaitInQueue d m0))) s
              (Handoff i j (SendOk m_queue)) = None)
    ∧ (SendFull m_running ∈ log g →
       ∀ ov, overload_of v (set_OverloadHandler oh (set_MaxWaitInQueue d m0)) = Some ov →
         (∃ r, log g `prefix_of`
                 [SendFull m_running; SendFull m_queue; Invoked Overload ov; Finished r])
         ∧ (finished (code g) = false →
            ∃ o, is_Some (step (sys v (set_OverloadHandler oh (set_MaxWaitInQueue d m0))) s
                            (Act i o)))
         ∧ (finished (code g) = true →
            outcome_of (log g) = OverloadInvoked ov
            ∧ path_of (log g) = Some RejectedImmediate)).
Proof.
  intros HNew Hs i g Hi.
  destruct (New_of_Ok _ _ _ _ _ HNew) as (_ & _ & _ & Hcq).
  set (m := set_OverloadHandler oh (set_MaxWaitInQueue d m0)) in *.
  assert (cap (queue m) = 0) as Hcap by (simpl; rewrite Hcq; reflexivity).
  assert (g ∈ procs s) as Hg by (eapply list_elem_of_lookup_2; eauto).
  pose proof (reachable_lrun _ _ Hs) as Hall.
  pose proof (queue_never_acquired v m s Hcap Hs) as Hq.
  pose proof (Forall_lookup_1 _ _ _ _ Hq Hi) as Hq0. simpl in Hq0.
  split; [by apply acquired_zero_no_send|]. split; [exact Hq0|].
  split; [|split].
  - destruct (step (sys v m) s (Act i (SendOk m_queue))) as [s'|] eqn:E; [|done].
    destruct (step_inv _ _ _ _ E) as
      [[? _]|[(i' & o & g' & q & [= <- <-] & _ & _ & Hen & _)
             |(? & ? & ? & ? & ? & ? & ? & ? & ? & _)]]; try discriminate.
    simpl in Hen. rewrite Hcq in Hen. case_bool_decide; [lia|discriminate].
  - intros j.
    destruct (step (sys v m) s (Handoff i j (SendOk m_queue))) as [s'|] eqn:E; [|done].
    destruct (step_inv _ _ _ _ E) as
      [[? _]|[(? & ? & ? & ? & ? & _)
             |(i' & j' & o & c & gi & gj & qi & qj & [= <- <- <-] & [= <-] & _ & Hj & _ & Hqj & _)]];
      try discriminate.
    pose proof (receiver_holds _ _ _ _ _ _ (Forall_lookup_1 _ _ _ _ Hall Hj) Hqj).
    pose proof (Forall_lookup_1 _ _ _ _ Hq Hj) as H0. simpl in H0. lia.
  - intros Hfull ov Hov.
    destruct (overflow_run _ _ _ _ _ (Forall_lookup_1 _ _ _ _ Hall Hi) Hov Hq0 Hfull)
      as (H1 & H2 & H3).
    repeat split; try assumption; try apply H3; auto.
    intros Hf. destruct (H2 Hf) as [[q Hstep]|[o Ho]].
    + exists (SendFull m_queue). simpl. rewrite Hi. simpl. unfold advance.
      simpl in Hstep. rewrite Hstep. simpl.
      rewrite bool_decide_eq_true_2; [eauto|]. rewrite Hcq. simpl. lia.
    + exists o. destruct (next_obs_step _ _ Ho) as [[q Hstep] Hfree].
      eapply step_enabled; eauto.
Qed.

Lemma C6_witness :
  New_of maxconnections_go 1 0 (user_handler 0)
  = Ok {| running := mkchan 1; queue := mkchan 0; handler := user_handler 0;
          MaxWaitInQueue := 0; OverloadHandler := None |}
  ∧ reachable (sys maxconnections_go
                 (set_OverloadHandler None
                    (set_MaxWaitInQueue 5
                       {| running := mkchan 1; queue := mkchan 0; handler := user_handler 0;
                          MaxWaitInQueue := 0; OverloadHandler := None |})))
      (after (sys maxconnections_go
                {| running := mkchan 1; queue := mkchan 0; handler := user_handler 0;
                   MaxWaitInQueue := 5; OverloadHandler := None |})
         [Arrive; Arrive; Act 0 (SendOk m_running); Act 1 (SendFull m_running)])
  ∧ step (sys maxconnections_go
            {| running := mkchan 1; queue := mkchan 0; handler := user_handler 0;
               MaxWaitInQueue := 5; OverloadHandler := None |})
      (after (sys maxconnections_go
                {| running := mkchan 1; queue := mkchan 0; handler := user_handler 0;
                   MaxWaitInQueue := 5; OverloadHandler := None |})
         [Arrive; Arrive; Act 0 (SendOk m_running); Act 1 (SendFull m_running)])
      (Act 1 (SendOk m_queue)) = None.
Proof.
  set (m0 := {| running := mkchan 1; queue := mkchan 0; handler := user_handler 0;
                MaxWaitInQueue := 0; OverloadHandler := None |}).
  set (m := {| running := mkchan 1; queue := mkchan 0; handler := user_handler 0;
               MaxWaitInQueue := 5; OverloadHandler := None |}).
  set (σ := [Arrive; Arrive; Act 0 (SendOk m_running); Act 1 (SendFull m_running)]).
  assert (reachable (sys maxconnections_go (set_OverloadHandler None (set_MaxWaitInQueue 5 m0)))
            (after (sys maxconnections_go m) σ)) as Hr.
  { apply (after_reachable (sys maxconnections_go m)). vm_compute. eauto. }
  split; [reflexivity|]. split; [exact Hr|].
  apply (C6_zero_queue_rejects_overflow maxconnections_go 1 (user_handler 0) m0 5 None _
           eq_refl Hr 1 (proc_at (after (sys maxconnections_go m) σ) 1) eq_refl).
Defined.

(** ** C2: the statement as it stands, and instances *)



(** ** The scenario of [TestMaxConnections] *)

(** Two requests run the handler, three wait, the sixth got the overload
    handler; when one handler has returned and a waiting request was promoted,
    two requests run and two wait. *)
Example test_scenario :
  len (st_arrived maxconnections_go) m_running = 2
  ∧ len (st_arrived maxconnections_go) m_queue = 3
  ∧ outcome_of <$> (log <$> procs (st_arrived maxconnections_go))
    = [DelegateInvoked (user_handler 0); DelegateInvoked (user_handler 0);
       NoResponse; NoResponse; NoResponse; OverloadInvoked defaultOverloadHandler]
  ∧ len (after (sys part_000 test_m')
           (six_arrive ++ [Act 0 (Finished Returns); Act 0 (Recvd m_running);
                           Act 2 (RaceSent m_running); Act 2 (TimerStopped (Timer 1));
                           Act 2 (Recvd m_queue)])) m_running = 2
  ∧ len (after (sys part_000 test_m')
           (six_arrive ++ [Act 0 (Finished Returns); Act 0 (Recvd m_running);
                           Act 2 (RaceSent m_running); Act 2 (TimerStopped (Timer 1));
                           Act 2 (Recvd m_queue)])) m_queue = 2.
Proof. vm_compute. auto. Qed.

(** ** C4 and C5 on the schedules of the tests *)

Lemma C4_witness :
  reachable (sys part_000 test_m') (st_served part_000)
  ∧ proc_at (st_served part_000) 3 ∈ procs (st_served part_000)
  ∧ Invoked Overload defaultOverloadHandler ∈ log (proc_at (st_served part_000) 3)
  ∧ held m_queue (log (proc_at (st_served part_000) 3)) = 0.
Proof.
  assert (reachable (sys part_000 test_m') (st_served part_000)) as Hr.
  { apply after_reachable. vm_compute. eauto. }
  assert (proc_at (st_served part_000) 3 ∈ procs (st_served part_000)) as Hg.
  { apply (list_elem_of_lookup_2 _ 3). reflexivity. }
  assert (Invoked Overload defaultOverloadHandler ∈ log (proc_at (st_served part_000) 3))
    as Hi.
  { vm_compute. do 6 apply list_elem_of_further. apply list_elem_of_here. }
  destruct (C4_rejected_holds_no_permit part_000 test_m' _ Hr) as [H _].
  destruct (H _ m_queue defaultOverloadHandler Hg) as [H1 _].
  exact (conj Hr (conj Hg (conj Hi (H1 (or_introl Hi))))).
Defined.

Lemma C5_witness :
  reachable (sys maxconnections_go test_m) (st_arrived maxconnections_go)
  ∧ proc_at (st_arrived maxconnections_go) 0 ∈ procs (st_arrived maxconnections_go)
  ∧ last (log (proc_at (st_arrived maxconnections_go) 0))
    = Some (Invoked Delegate (user_handler 0))
  ∧ held m_running (log (proc_at (st_arrived maxconnections_go) 0)) = 1
  ∧ held m_queue (log (proc_at (st_arrived maxconnections_go) 0)) = 0.
Proof.
  assert (reachable (sys maxconnections_go test_m) (st_arrived maxconnections_go)) as Hr.
  { apply after_reachable. vm_compute. eauto. }
  assert (proc_at (st_arrived maxconnections_go) 0 ∈ procs (st_arrived maxconnections_go))
    as Hg.
  { apply (list_elem_of_lookup_2 _ 0). reflexivity. }
  destruct (C5_permits_per_request maxconnections_go test_m _ Hr _ Hg)
    as (_ & _ & _ & H4 & _).
  destruct (H4 (user_handler 0) (or_introl eq_refl)) as [H1 H2].
  exact (conj Hr (conj Hg (conj eq_refl (conj H1 H2)))).
Defined.

(** Between the three-way select and the receive from [m.queue] that
    follows it, a promoted request holds a permit of each pool. *)
Example promoted_holds_both_before_receive :
  run (sys maxconnections_go test_m) init
    (six_arrive ++ [Act 0 (Finished Returns); Act 0 (Recvd m_running);
                    Act 2 (RaceSent m_running)])
  = Some (after (sys maxconnections_go test_m)
            (six_arrive ++ [Act 0 (Finished Returns); Act 0 (Recvd m_running);
                            Act 2 (RaceSent m_running)]))
  ∧ let g := proc_at (after (sys maxconnections_go test_m)
                        (six_arrive ++ [Act 0 (Finished Returns); Act 0 (Recvd m_running);
                                        Act 2 (RaceSent m_running)])) 2 in
    held m_running (log g) = 1 ∧ held m_queue (log g) = 1.
Proof. vm_compute. auto. Qed.

(** ** C10 *)

(** C10.  [New] checks nothing: with a negative [maxRunning] or a negative
    [maxInQueue] it does not return, the [make] of the channel panics. *)
Theorem C10_New_panics_on_negative_capacity
    (v : version) (maxRunning maxInQueue : Z) (h : Handler) :
  (maxRunning < 0 ∨ maxInQueue < 0)%Z →
  New_of v maxRunning maxInQueue h = RuntimePanic.
Proof.
  intros Hneg. destruct v; simpl; unfold Maxconnections.New, Part000.New, make_chan.
  all: destruct (Z.ltb_spec maxRunning 0); [reflexivity|].
  all: destruct (Z.ltb_spec maxInQueue 0); [reflexivity|lia].
Qed.

Lemma C10_witness :
  (2 < 0 ∨ -1 < 0)%Z ∧ New_of part_000 2 (-1) (user_handler 0) = RuntimePanic.
Proof.
  split; [right; reflexivity|].
  apply C10_New_panics_on_negative_capacity. right. reflexivity.
Defined.

(** Every other pair of capacities is accepted, zero included. *)
Lemma New_accepts_non_negative v maxRunning maxInQueue h :
  (0 ≤ maxRunning)%Z → (0 ≤ maxInQueue)%Z →
  ∃ m, New_of v maxRunning maxInQueue h = Ok m
       ∧ cap (running m) = Z.to_nat maxRunning ∧ cap (queue m) = Z.to_nat maxInQueue.
Proof.
  intros Hr Hq. destruct v; simpl; unfold Maxconnections.New, Part000.New, make_chan.
  all: destruct (Z.ltb_spec maxRunning 0); [lia|].
  all: destruct (Z.ltb_spec maxInQueue 0); [lia|].
  all: eexists; split; [reflexivity|]; simpl; auto.
Qed.

(** ** C9 *)




(** * More of the code *)

(** ** The counter of the tests *)

Local Open Scope Z_scope.

Lemma wrap_int_add_l a b : wrap_int (wrap_int a + b) = wrap_int (a + b).
Proof.
  unfold wrap_int.
  replace ((a + 2 ^ 63) mod 2 ^ 64 - 2 ^ 63 + b + 2 ^ 63)
    with ((a + 2 ^ 63) mod 2 ^ 64 + b) by lia.
  rewrite Zplus_mod_idemp_l. f_equal. f_equal. lia.
Qed.

Lemma wrap_int_in_int z : in_int (wrap_int z).
Proof.
  unfold in_int, wrap_int.
  pose proof (Z.mod_pos_bound (z + 2 ^ 63) (2 ^ 64) ltac:(lia)). lia.
Qed.

Lemma wrap_int_id z : in_int z → wrap_int z = z.
Proof.
  unfold in_int, wrap_int. intros H.
  rewrite Z.mod_small by lia. lia.
Qed.

Lemma index_Add key delta c k :
  index (Add key delta c) k
  = if decide (key = k) then wrap_int (index c key + delta) else index c k.
Proof.
  unfold index, Add. destruct (decide (key = k)) as [->|Hne].
  - by rewrite lookup_insert_eq.
  - by rewrite lookup_insert_ne.
Qed.

Lemma Equal_true_iff (c m : gmap Z Z) :
  Equal c m = true ↔ ∀ k, index c k = index m k.
Proof.
  unfold Equal. rewrite andb_true_iff, !bool_decide_eq_true. split.
  - intros [Hm Hc] k. unfold index at 2.
    destruct (m !! k) as [v|] eqn:Ek; simpl.
    + apply (Hm k v Ek).
    + unfold index. destruct (c !! k) as [w|] eqn:Ec; simpl; [|done].
      specialize (Hc k w Ec). simpl in Hc.
      destruct (decide (w = 0)); [done|]. exfalso. apply Hc. done.
  - intros H. split.
    + intros k v Ek. rewrite H. unfold index. by rewrite Ek.
    + intros k w Ec [Ek Hw]. apply Hw.
      specialize (H k). unfold index in H. rewrite Ec, Ek in H. done.
Qed.

(** X1.  [c.Equal(m)] is true exactly when the two maps read the same at
    every key, a missing key reading as zero: entries with the value zero do
    not count, on either side. *)
Theorem X1_Equal_compares_readings (c m : gmap Z Z) :
  Equal c m = true ↔ ∀ k, index c k = index m k.
Proof. apply Equal_true_iff. Qed.

(** X2.  [Equal] is symmetric, although its two loops treat the receiver and
    the argument differently. *)
Theorem X2_Equal_symmetric (c m : gmap Z Z) : Equal c m = Equal m c.
Proof.
  apply eq_true_iff_eq. rewrite !Equal_true_iff.
  split; intros H k; by rewrite H.
Qed.

(** X3.  Two calls of [Add] give the same map in either order, for the same
    key or for different keys: the counts do not depend on the order in which
    concurrent callers get the mutex. *)
Theorem X3_Add_commutes (k1 d1 k2 d2 : Z) (c : gmap Z Z) :
  Add k1 d1 (Add k2 d2 c) = Add k2 d2 (Add k1 d1 c).
Proof.
  unfold Add at 1 3. rewrite !index_Add.
  destruct (decide (k2 = k1)) as [->|Hne].
  - rewrite decide_True by done. unfold Add. rewrite !insert_insert_eq.
    f_equal. rewrite !wrap_int_add_l. f_equal. lia.
  - rewrite decide_False by done. unfold Add. by rewrite insert_insert_ne.
Qed.

Lemma Add_Add (k d1 d2 : Z) (c : gmap Z Z) :
  Add k d2 (Add k d1 c) = Add k (d1 + d2) c.
Proof.
  unfold Add at 1. rewrite index_Add, decide_True by done.
  unfold Add. rewrite insert_insert_eq. f_equal.
  rewrite wrap_int_add_l. f_equal. lia.
Qed.

(** X4.  Two additions to a key are one addition of the sum, with Go's
    wrap-around. *)
Theorem X4_Add_twice (k d1 d2 : Z) (c : gmap Z Z) :
  Add k d2 (Add k d1 c) = Add k (d1 + d2) c.
Proof. apply Add_Add. Qed.

Lemma ints_newCounter : ints newCounter.
Proof. apply map_Forall_empty. Qed.

Lemma ints_Add k d c : ints c → ints (Add k d c).
Proof. intros H. apply map_Forall_insert_2; [apply wrap_int_in_int|done]. Qed.

Lemma ints_index c k : ints c → in_int (index c k).
Proof.
  intros H. unfold index. destruct (c !! k) as [v|] eqn:E; simpl.
  - apply (H k v E).
  - unfold in_int. lia.
Qed.

(** X5.  Additions to a key that cancel out leave a counter that [Equal]
    cannot tell from the one before, also when the key was not there before
    and is now stored with the value zero. *)
Theorem X5_Add_cancelled_is_Equal (k d1 d2 : Z) (c : gmap Z Z) :
  ints c → wrap_int (d1 + d2) = 0 →
  Equal (Add k d2 (Add k d1 c)) c = true.
Proof.
  intros Hc Hd. rewrite Add_Add. apply Equal_true_iff. intros k'.
  rewrite index_Add. destruct (decide (k = k')) as [<-|]; [|done].
  rewrite Z.add_comm, <- wrap_int_add_l, Hd. simpl.
  apply wrap_int_id, ints_index, Hc.
Qed.

Lemma X5_witness :
  ints (Add 300 3 (Add 100 1 newCounter))
  ∧ wrap_int (2 + -2) = 0
  ∧ Equal (Add 200 (-2) (Add 200 2 (Add 300 3 (Add 100 1 newCounter))))
      (Add 300 3 (Add 100 1 newCounter)) = true.
Proof.
  assert (ints (Add 300 3 (Add 100 1 newCounter))) as H
    by (do 2 apply ints_Add; apply ints_newCounter).
  exact (conj H (conj eq_refl
           (X5_Add_cancelled_is_Equal 200 2 (-2) _ H eq_refl))).
Defined.

(** X6.  [Values] returns a map with exactly the entries of the counter, so
    that [c.Equal(c.Values())] holds. *)
Theorem X6_Values_copies (c : gmap Z Z) :
  Values c = c ∧ Equal c (Values c) = true.
Proof.
  assert (Values c = c) as H.
  { unfold Values.
    apply (map_fold_weak_ind (λ r m, r = m) (λ k v m, <[k := v]> m) ∅); [done|].
    by intros i x m r _ ->. }
  split; [exact H|]. rewrite H. by apply Equal_true_iff.
Qed.

(** The assertions of [TestCoutner]. *)
Example TestCoutner :
  let c := Add 300 3 (Add 200 2 (Add 100 1 newCounter)) in
  let c' := Add 200 (-2) c in
  Equal c (<[100 := 1]> (<[200 := 2]> (<[300 := 3]> ∅))) = true
  ∧ Equal c' (<[100 := 1]> (<[200 := 0]> (<[300 := 3]> ∅))) = true
  ∧ Equal c' (<[100 := 1]> (<[300 := 3]> ∅)) = true
  ∧ Equal c' (<[100 := 1]> (<[300 := 3]> (<[400 := 0]> ∅))) = true
  ∧ Equal c' (<[100 := 1]> ∅) = false
  ∧ Equal c' (<[100 := 1]> (<[300 := 3]> (<[400 := 4]> ∅))) = false.
Proof. vm_compute. repeat split. Qed.

Local Close Scope Z_scope.

(** ** More of [ServeHTTP] *)

(** The buffer of a pool holds exactly the permits held. *)
Lemma total_held_len v m s c :
  reachable (sys v m) s → total (held c) s = len s c.
Proof.
  intros Hs. pose proof (reachable_balance _ s c Hs) as Hb.
  assert (∀ g, g ∈ procs s → released c (log g) ≤ acquired c (log g)) as Hle.
  { apply (reachable_local v m s (λ l _, released c l ≤ acquired c l)); [|done].
    intros l p Hl. apply (permits_at_most_once _ _ _ _ c Hl). }
  pose proof (total_held s c Hle). lia.
Qed.

(** One handler call at most, and which one. *)
Lemma handler_calls_run v m l p :
  lrun (ServeHTTP_of v m) l p →
  handler_calls l ≤ 1
  ∧ ∀ r h, Invoked r h ∈ l ∨ is_Some (lstep p (Invoked r h)) →
      match r with
      | Delegate => h = handler m ∧ path_of l = Some Accepted
      | Overload => overload_of v m = Some h ∧ path_of l ≠ Some Accepted
      end.
Proof.
  intros H. versions v m H.
  all: split; [vm_compute; lia|].
  all: intros r h' [Hi|[q' Hq]]; try lstep_step Hq; log_cases.
  all: split; first [reflexivity | discriminate].
Qed.

(** X7.  In every state the system can reach, a request has called at most
    one handler.  The delegate handler it calls is [m.handler], and it calls
    it only with a running permit acquired; the overload handler it calls is
    [m.OverloadHandler], or in [src/maxconnections/maxconnections.go] the
    package's [OverloadHandler] when the field is nil, and it calls it only on
    a rejected way. *)
Theorem X7_one_handler_per_request (v : version) (m : Middleware) (s : state) :
  reachable (sys v m) s →
  ∀ g, g ∈ procs s →
    handler_calls (log g) ≤ 1
    ∧ ∀ r h, Invoked r h ∈ log g ∨ is_Some (lstep (code g) (Invoked r h)) →
        match r with
        | Delegate => h = handler m ∧ path_of (log g) = Some Accepted
        | Overload => overload_of v m = Some h ∧ path_of (log g) ≠ Some Accepted
        end.
Proof.
  intros Hs g Hg.
  apply (reachable_local v m s
           (λ l p, handler_calls l ≤ 1
                   ∧ ∀ r h, Invoked r h ∈ l ∨ is_Some (lstep p (Invoked r h)) →
                       match r with
                       | Delegate => h = handler m ∧ path_of l = Some Accepted
                       | Overload => overload_of v m = Some h ∧ path_of l ≠ Some Accepted
                       end)); [|done..].
  apply handler_calls_run.
Qed.

Lemma X7_witness :
  reachable (sys part_000 test_m') (st_served part_000)
  ∧ proc_at (st_served part_000) 4 ∈ procs (st_served part_000)
  ∧ handler_calls (log (proc_at (st_served part_000) 4)) ≤ 1.
Proof.
  assert (reachable (sys part_000 test_m') (st_served part_000)) as Hr.
  { apply after_reachable. vm_compute. eauto. }
  assert (proc_at (st_served part_000) 4 ∈ procs (st_served part_000)) as Hg.
  { apply (list_elem_of_lookup_2 _ 4). reflexivity. }
  exact (conj Hr (conj Hg (proj1 (X7_one_handler_per_request part_000 test_m' _ Hr _ Hg)))).
Defined.

(** How [ServeHTTP] ends. *)
Lemma panic_run v m l p :
  lrun (ServeHTTP_of v m) l p →
  finished p = true →
  (p = Panic ↔
   Finished Panics ∈ l ∨ (overload_of v m = None ∧ path_of l ≠ Some Accepted))
  ∧ ∀ c, held c l = 0.
Proof.
  intros H. versions v m H; intros Hf; try discriminate Hf.
  all: split; [|intros []; reflexivity].
  all: split;
    [intros Hp; try discriminate Hp;
     first [left; in_log; fail | right; split; [reflexivity|discriminate]]
    |intros [Hi|[Ho Hp]]; log_cases; try discriminate Ho; try reflexivity;
     try (exfalso; apply Hp; reflexivity)].
Qed.

(** X8.  A request leaves [ServeHTTP] by a panic exactly when the handler it
    called panicked, or when it was rejected and there is no overload handler
    to call (the version of [src/unnamed/part_000] with a nil
    [m.OverloadHandler]); the panic of a handler is never swallowed and none
    is added.  Whichever way it leaves, it holds no permit. *)
Theorem X8_panics_propagate (v : version) (m : Middleware) (s : state) :
  reachable (sys v m) s →
  ∀ g, g ∈ procs s → finished (code g) = true →
    (code g = Panic ↔
     Finished Panics ∈ log g
     ∨ (overload_of v m = None ∧ path_of (log g) ≠ Some Accepted))
    ∧ ∀ c, held c (log g) = 0.
Proof.
  intros Hs g Hg.
  apply (reachable_local v m s
           (λ l p, finished p = true →
                   (p = Panic ↔
                    Finished Panics ∈ l
                    ∨ (overload_of v m = None ∧ path_of l ≠ Some Accepted))
                   ∧ ∀ c, held c l = 0)); [|done..].
  apply panic_run.
Qed.

Lemma X8_witness :
  reachable (sys part_000 test_m') (st_served part_000)
  ∧ proc_at (st_served part_000) 2 ∈ procs (st_served part_000)
  ∧ finished (code (proc_at (st_served part_000) 2)) = true
  ∧ (Finished Panics ∈ log (proc_at (st_served part_000) 2) →
     code (proc_at (st_served part_000) 2) = Panic)
  ∧ held m_running (log (proc_at (st_served part_000) 2)) = 0.
Proof.
  assert (reachable (sys part_000 test_m') (st_served part_000)) as Hr.
  { apply after_reachable. vm_compute. eauto. }
  assert (proc_at (st_served part_000) 2 ∈ procs (st_served part_000)) as Hg.
  { apply (list_elem_of_lookup_2 _ 2). reflexivity. }
  destruct (X8_panics_propagate part_000 test_m' _ Hr _ Hg eq_refl) as [H1 H2].
  exact (conj Hr (conj Hg (conj eq_refl
           (conj (λ Hp, proj2 H1 (or_introl Hp)) (H2 m_running))))).
Defined.

(** X9.  A request waits only in the three-way select and inside a handler.
    In every state the system can reach, a request that is anywhere else in
    [ServeHTTP] can make its next step at once: a select with a default case
    takes one of its two cases, and a receive from [m.running] or [m.queue]
    finds an element, because the request holds the permit it gives back. *)
Theorem X9_blocks_only_in_the_queued_wait
    (v : version) (m : Middleware) (s : state) (i : nat) (g : goroutine) :
  reachable (sys v m) s →
  procs s !! i = Some g →
  finished (code g) = false →
  waits_outside (code g) = false →
  ∃ o, is_Some (step (sys v m) s (Act i o)).
Proof.
  intros Hs Hi Hf Hw.
  destruct (code g) as [a| |c k|c k|d k|t k|c tc k|r h k|k] eqn:Ec;
    try discriminate Hf; try discriminate Hw.
  - destruct (decide (len s c < sys_cap (sys v m) c)) as [Hlt|Hge].
    + exists (SendOk c). simpl. rewrite Hi. simpl. unfold advance. rewrite Ec. simpl.
      rewrite decide_True by done. simpl.
      rewrite bool_decide_eq_true_2 by exact Hlt. eauto.
    + exists (SendFull c). simpl. rewrite Hi. simpl. unfold advance. rewrite Ec. simpl.
      rewrite decide_True by done. simpl.
      rewrite bool_decide_eq_true_2; [eauto|]. simpl in Hge. lia.
  - exists (Recvd c). eapply step_enabled; eauto.
    rewrite Ec. simpl. by rewrite decide_True.
  - exists (TimerNew (Timer d)). eapply step_enabled; eauto; [|left; exact I].
    rewrite Ec. simpl. by rewrite decide_True.
  - exists (TimerStopped t). eapply step_enabled; eauto; [|left; exact I].
    rewrite Ec. simpl. by rewrite decide_True.
  - exists (Invoked r h). eapply step_enabled; eauto; [|left; exact I].
    rewrite Ec. simpl. by rewrite !decide_True.
Qed.

Lemma X9_witness :
  reachable (sys maxconnections_go test_m)
      (after (sys maxconnections_go test_m)
         (six_arrive ++ [Act 4 RaceCancel]))
    ∧ procs (after (sys maxconnections_go test_m) (six_arrive ++ [Act 4 RaceCancel])) !! 4
      = Some (proc_at (after (sys maxconnections_go test_m)
                         (six_arrive ++ [Act 4 RaceCancel])) 4)
    ∧ finished (code (proc_at (after (sys maxconnections_go test_m)
                                 (six_arrive ++ [Act 4 RaceCancel])) 4)) = false
    ∧ waits_outside (code (proc_at (after (sys maxconnections_go test_m)
                                      (six_arrive ++ [Act 4 RaceCancel])) 4)) = false
    ∧ ∃ o, is_Some (step (sys maxconnections_go test_m)
                      (after (sys maxconnections_go test_m)
                         (six_arrive ++ [Act 4 RaceCancel])) (Act 4 o)).
Proof.
  assert (reachable (sys maxconnections_go test_m)
            (after (sys maxconnections_go test_m) (six_arrive ++ [Act 4 RaceCancel]))) as Hr.
  { apply after_reachable. vm_compute. eauto. }
  exact (conj Hr (conj eq_refl (conj eq_refl (conj eq_refl
           (X9_blocks_only_in_the_queued_wait maxconnections_go test_m _ 4 _
              Hr eq_refl eq_refl eq_refl))))).
Defined.

(** X10.  The default case of a select is taken only when the channel is
    full.  In every state the system can reach, when a request finds
    [m.running] full, or is rejected because [m.queue] is full, the buffer
    holds as many elements as its capacity and as many permits of that pool
    are held by requests at that instant. *)
Theorem X10_rejected_only_when_full
    (v : version) (m : Middleware) (s s' : state) (i : nat) (c : chan_sel) :
  reachable (sys v m) s →
  step (sys v m) s (Act i (SendFull c)) = Some s' →
  len s c = cap (chan_of m c)
  ∧ total (held c) s = cap (chan_of m c)
  ∧ ∀ c', len s' c' = len s c'.
Proof.
  intros Hs Hstep.
  destruct (step_inv _ _ _ _ Hstep) as
    [[? _]|[(i' & o & g & q & [= <- <-] & _ & _ & Hen & ->)
           |(? & ? & ? & ? & ? & ? & ? & ? & ? & _)]]; try discriminate.
  simpl in Hen. apply bool_decide_eq_true in Hen.
  pose proof (reachable_len_le_cap _ s c Hs) as Hle. simpl in Hle.
  assert (len s c = cap (chan_of m c)) as Heq by lia.
  split; [exact Heq|]. split.
  - rewrite (total_held_len v m s c Hs). exact Heq.
  - intros c'. simpl. lia.
Qed.

Lemma X10_witness :
  reachable (sys maxconnections_go test_m)
    (after (sys maxconnections_go test_m)
       (firstn 20 six_arrive))
  ∧ is_Some (step (sys maxconnections_go test_m)
               (after (sys maxconnections_go test_m) (firstn 20 six_arrive))
               (Act 5 (SendFull m_queue)))
  ∧ len (after (sys maxconnections_go test_m) (firstn 20 six_arrive)) m_queue = 3.
Proof.
  assert (reachable (sys maxconnections_go test_m)
            (after (sys maxconnections_go test_m) (firstn 20 six_arrive))) as Hr.
  { apply after_reachable. vm_compute. eauto. }
  assert (step (sys maxconnections_go test_m)
            (after (sys maxconnections_go test_m) (firstn 20 six_arrive))
            (Act 5 (SendFull m_queue))
          = Some (after (sys maxconnections_go test_m) (firstn 21 six_arrive))) as Hstep.
  { vm_compute. reflexivity. }
  refine (conj Hr (conj _ (proj1 (X10_rejected_only_when_full maxconnections_go test_m
                                    _ _ 5 m_queue Hr Hstep)))).
  rewrite Hstep. eauto.
Defined.

(** A request in the queued wait holds the queue permit. *)
Lemma queued_wait_holds_queue v m l p :
  lrun (ServeHTTP_of v m) l p →
  waits_outside p = true →
  match p with
  | Select3 _ _ _ => held m_queue l = 1 ∧ held m_running l = 0
  | _ => True
  end.
Proof.
  intros H. versions v m H; intros Hw; try discriminate Hw; try exact I.
  all: split; reflexivity.
Qed.

(** X11.  For an instance made by [New(maxRunning, maxInQueue, h)], whatever
    is then assigned to its exported fields, no more than [maxInQueue]
    requests are in the queued wait at any instant, and each of them holds a
    queue permit and no running permit. *)
Theorem X11_waiting_requests_bounded
    (v : version) (maxRunning maxInQueue : Z) (h : Handler) (m0 : Middleware)
    (d : Z) (oh : option Handler) (s : state) :
  New_of v maxRunning maxInQueue h = Ok m0 →
  reachable (sys v (set_OverloadHandler oh (set_MaxWaitInQueue d m0))) s →
  (Z.of_nat (length (filter in_queued_wait (procs s))) ≤ maxInQueue)%Z
  ∧ ∀ g, g ∈ procs s → in_queued_wait g →
      held m_queue (log g) = 1 ∧ held m_running (log g) = 0.
Proof.
  intros HNew Hs.
  destruct (New_of_Ok _ _ _ _ _ HNew) as (_ & Hq & _ & Hcq).
  set (m := set_OverloadHandler oh (set_MaxWaitInQueue d m0)) in *.
  assert (∀ g, g ∈ procs s → in_queued_wait g →
            held m_queue (log g) = 1 ∧ held m_running (log g) = 0) as Hwait.
  { intros g Hg Hw. unfold in_queued_wait in Hw.
    pose proof (reachable_local v m s
                  (λ l p, waits_outside p = true →
                          match p with
                          | Select3 _ _ _ => held m_queue l = 1 ∧ held m_running l = 0
                          | _ => True
                          end) (queued_wait_holds_queue v m) Hs g Hg) as HL.
    simpl in HL. destruct (code g); try done. by apply HL. }
  split; [|exact Hwait].
  pose proof (reachable_len_le_cap _ s m_queue Hs) as Hle. simpl in Hle.
  rewrite Hcq in Hle.
  assert (length (filter in_queued_wait (procs s)) ≤ len s m_queue); [|lia].
  rewrite <- (total_held_len v m s m_queue Hs), length_filter_sum. unfold total.
  apply sum_list_with_le. rewrite Forall_forall. intros g Hg.
  destruct (decide (in_queued_wait g)) as [Hw|]; [|lia].
  destruct (Hwait g Hg Hw) as [-> _]. lia.
Qed.

Lemma X11_witness :
  New_of maxconnections_go 2 3 (user_handler 0) = Ok (set_MaxWaitInQueue 0 test_m)
  ∧ reachable (sys maxconnections_go
                 (set_OverloadHandler None (set_MaxWaitInQueue 1 (set_MaxWaitInQueue 0 test_m))))
      (st_arrived maxconnections_go)
  ∧ (Z.of_nat (length (filter in_queued_wait (procs (st_arrived maxconnections_go)))) ≤ 3)%Z.
Proof.
  assert (reachable (sys maxconnections_go
                 (set_OverloadHandler None (set_MaxWaitInQueue 1 (set_MaxWaitInQueue 0 test_m))))
      (st_arrived maxconnections_go)) as H.
  { apply (after_reachable (sys maxconnections_go test_m)). vm_compute. eauto. }
  exact (conj eq_refl (conj H
           (proj1 (X11_waiting_requests_bounded maxconnections_go 2 3 (user_handler 0)
                     (set_MaxWaitInQueue 0 test_m) 1 None _ eq_refl H)))).
Defined.

(** No permit is ever acquired from a pool of capacity zero. *)
Lemma pool_never_acquired v m c s :
  cap (chan_of m c) = 0 →
  reachable (sys v m) s →
  Forall (λ g, acquired c (log g) = 0) (procs s).
Proof.
  intros Hcap Hs.
  cut (reachable (sys v m) s ∧ Forall (λ g, acquired c (log g) = 0) (procs s));
    [tauto|].
  revert s Hs.
  apply (reachable_invariant (sys v m)
           (λ s, reachable (sys v m) s
                 ∧ Forall (λ g, acquired c (log g) = 0) (procs s))).
  { split; [by exists []|constructor]. }
  intros s a s' [Hr IH] Hstep. split; [eapply reachable_step; eauto|].
  pose proof (reachable_lrun _ _ Hr) as Hall.
  destruct (step_inv _ _ _ _ Hstep) as
    [[-> ->]|[(i & o & g & q & -> & Hg & Hq & Hen & ->)
             |(i & j & o & c' & gi & gj & qi & qj & -> & Hc & Hi & Hj & Hqi & Hqj & Hij & Hlen & ->)]];
    simpl.
  - apply Forall_app; split; [done|]. repeat constructor.
  - apply Forall_insert; [done|]. simpl. rewrite acquired_snoc.
    rewrite (Forall_lookup_1 _ _ _ _ IH Hg).
    destruct o as [c0|c0|c0|t|t|c0| | |r h|r]; simpl; try reflexivity;
      (destruct (decide (c = c0)) as [<-|]; [|reflexivity]);
      simpl in Hen; apply bool_decide_eq_true in Hen; simpl in Hcap; lia.
  - assert (c' ≠ c) as Hne.
    { intros ->.
      pose proof (receiver_holds _ _ _ _ _ _ (Forall_lookup_1 _ _ _ _ Hall Hj) Hqj).
      pose proof (Forall_lookup_1 _ _ _ _ IH Hj) as H0. simpl in H0. lia. }
    apply Forall_insert; [apply Forall_insert; [done|]|]; simpl; rewrite acquired_snoc.
    + rewrite (Forall_lookup_1 _ _ _ _ IH Hi).
      destruct o; simpl in *; try discriminate; injection Hc as ->;
        rewrite decide_False by congruence; reflexivity.
    + rewrite (Forall_lookup_1 _ _ _ _ IH Hj). reflexivity.
Qed.

(** The delegate handler is called with a running permit acquired. *)
Lemma delegate_needs_running v m l p h :
  lrun (ServeHTTP_of v m) l p →
  Invoked Delegate h ∈ l ∨ is_Some (lstep p (Invoked Delegate h)) →
  acquired m_running l = 1.
Proof.
  intros H. versions v m H; (intros [Hl|[q Hq]]; [|lstep_step Hq]);
    log_cases; reflexivity.
Qed.

(** X12.  [New] accepts [maxRunning = 0], and the instance it makes never
    calls the delegate handler: [m.running] is then unbuffered and nothing
    ever receives from it, so that no send to it succeeds, neither in the
    first select nor in the queued wait, and no request is ever accepted. *)
Theorem X12_zero_running_never_serves
    (v : version) (maxInQueue : Z) (h : Handler) (m0 : Middleware)
    (d : Z) (oh : option Handler) (s : state) :
  New_of v 0 maxInQueue h = Ok m0 →
  reachable (sys v (set_OverloadHandler oh (set_MaxWaitInQueue d m0))) s →
  len s m_running = 0
  ∧ ∀ i g, procs s !! i = Some g →
      acquired m_running (log g) = 0
      ∧ path_of (log g) ≠ Some Accepted
      ∧ (∀ h', Invoked Delegate h' ∉ log g)
      ∧ (∀ h', step (sys v (set_OverloadHandler oh (set_MaxWaitInQueue d m0))) s
                 (Act i (Invoked Delegate h')) = None).
Proof.
  intros HNew Hs.
  destruct (New_of_Ok _ _ _ _ _ HNew) as (_ & _ & Hcr & _).
  set (m := set_OverloadHandler oh (set_MaxWaitInQueue d m0)) in *.
  assert (cap (chan_of m m_running) = 0) as Hcap by (simpl; rewrite Hcr; reflexivity).
  pose proof (reachable_len_le_cap _ s m_running Hs) as Hle. simpl in Hle.
  split; [simpl in Hcap; lia|].
  intros i g Hi.
  pose proof (reachable_lrun _ _ Hs) as Hall.
  pose proof (Forall_lookup_1 _ _ _ _ Hall Hi) as Hrun. simpl in Hrun.
  pose proof (Forall_lookup_1 _ _ _ _ (pool_never_acquired v m m_running s Hcap Hs) Hi)
    as H0. simpl in H0.
  split; [exact H0|]. split; [|split].
  - intros Hp.
    assert (acquired m_running (log g) ≠ 0); [|done]. clear -Hp.
    unfold acquired. induction (log g) as [|o l IH]; [discriminate|].
    destruct o as [[]|[]| | | |[]| | | |]; simpl in *; try discriminate;
      try (specialize (IH Hp)); lia.
  - intros h' Hin.
    pose proof (delegate_needs_running _ _ _ _ h' Hrun (or_introl Hin)). lia.
  - intros h'.
    destruct (step (sys v m) s (Act i (Invoked Delegate h'))) as [s'|] eqn:E; [|done].
    destruct (step_inv _ _ _ _ E) as
      [[? _]|[(i' & o & g' & q & [= <- <-] & Hg' & Hq & _)
             |(? & ? & ? & ? & ? & ? & ? & ? & ? & _)]]; try discriminate.
    rewrite Hi in Hg'. injection Hg' as <-.
    pose proof (delegate_needs_running _ _ _ _ h' Hrun (or_intror (ex_intro _ q Hq))). lia.
Qed.

Lemma X12_witness :
  New_of part_000 0 1 (user_handler 0)
  = Ok {| running := mkchan 0; queue := mkchan 1; handler := user_handler 0;
          MaxWaitInQueue := 0; OverloadHandler := Some OverloadHandler_var |}
  ∧ reachable
      (sys part_000
         (set_OverloadHandler (Some OverloadHandler_var)
            (set_MaxWaitInQueue 0
               {| running := mkchan 0; queue := mkchan 1; handler := user_handler 0;
                  MaxWaitInQueue := 0; OverloadHandler := Some OverloadHandler_var |})))
      (after
         (sys part_000
            {| running := mkchan 0; queue := mkchan 1; handler := user_handler 0;
               MaxWaitInQueue := 0; OverloadHandler := Some OverloadHandler_var |})
         [Arrive; Arrive; Act 0 (SendFull m_running); Act 0 (SendOk m_queue);
          Act 1 (SendFull m_running); Act 1 (SendFull m_queue)])
  ∧ len (after
           (sys part_000
              {| running := mkchan 0; queue := mkchan 1; handler := user_handler 0;
                 MaxWaitInQueue := 0; OverloadHandler := Some OverloadHandler_var |})
           [Arrive; Arrive; Act 0 (SendFull m_running); Act 0 (SendOk m_queue);
            Act 1 (SendFull m_running); Act 1 (SendFull m_queue)]) m_running = 0.
Proof.
  set (m0 := {| running := mkchan 0; queue := mkchan 1; handler := user_handler 0;
                MaxWaitInQueue := 0; OverloadHandler := Some OverloadHandler_var |}).
  set (σ := [Arrive; Arrive; Act 0 (SendFull m_running); Act 0 (SendOk m_queue);
             Act 1 (SendFull m_running); Act 1 (SendFull m_queue)]).
  assert (reachable
            (sys part_000 (set_OverloadHandler (Some OverloadHandler_var)
                             (set_MaxWaitInQueue 0 m0)))
            (after (sys part_000 m0) σ)) as Hr.
  { apply (after_reachable (sys part_000 m0)). vm_compute. eauto. }
  exact (conj eq_refl (conj Hr
           (proj1 (X12_zero_running_never_serves part_000 1 (user_handler 0) m0 0
                     (Some OverloadHandler_var) _ eq_refl Hr)))).
Defined.

(** X13.  [enqueueRunning] of [src/unnamed/part_000] returns true exactly
    when it has acquired a running permit.  Whatever it returns, it holds no
    queue permit at its return, it has stopped the timer it armed, it has
    called no handler, and it does not panic. *)
Theorem X13_enqueueRunning_result (m : Middleware) (l : list obs) (p : M bool) :
  lrun (Part000.enqueueRunning m) l p →
  p ≠ Panic
  ∧ (∀ r h, Invoked r h ∉ l)
  ∧ ∀ b, p = Ret b →
      held m_running l = (if b then 1 else 0)
      ∧ held m_queue l = 0
      ∧ (∀ t, TimerNew t ∈ l → TimerStopped t ∈ l)
      ∧ (b = true ↔ path_of l = Some Accepted).
Proof.
  unfold Part000.enqueueRunning. intros H.
  destruct (0 <? MaxWaitInQueue m)%Z eqn:?; symex.
  all: split; [discriminate|].
  all: split; [intros r h Hi; log_cases|].
  all: intros b Hb; try discriminate Hb; injection Hb as <-.
  all: split; [reflexivity|split; [reflexivity|]].
  all: split; [intros t Ht; in_log|].
  all: split; first [reflexivity | discriminate | intros _; reflexivity].
Qed.

Lemma X13_witness :
  lrun (Part000.enqueueRunning test_m')
    [SendFull m_running; SendOk m_queue; TimerNew (Timer 1); RaceCancel;
     TimerStopped (Timer 1); Recvd m_queue] (Ret false)
  ∧ held m_queue
      [SendFull m_running; SendOk m_queue; TimerNew (Timer 1); RaceCancel;
       TimerStopped (Timer 1); Recvd m_queue] = 0.
Proof.
  assert (lrun (Part000.enqueueRunning test_m')
    [SendFull m_running; SendOk m_queue; TimerNew (Timer 1); RaceCancel;
     TimerStopped (Timer 1); Recvd m_queue] (Ret false)) as H.
  { repeat (eapply lrun_cons; [reflexivity|]). apply lrun_nil. }
  destruct (X13_enqueueRunning_result _ _ _ H) as (_ & _ & Hb).
  exact (conj H (proj1 (proj2 (Hb false eq_refl)))).
Defined.

(** The timers of a request. *)
Lemma timers_run v m l p :
  lrun (ServeHTTP_of v m) l p →
  (∀ t, TimerNew t ∈ l →
     t = Timer (MaxWaitInQueue m) ∧ (0 <? MaxWaitInQueue m)%Z = true
     ∧ acquired m_queue l = 1)
  ∧ match v with
    | part_000 =>
        ∀ t, TimerNew t ∈ l →
          finished p = true
          ∨ (∃ r h, Invoked r h ∈ l ∨ is_Some (lstep p (Invoked r h))) →
          TimerStopped t ∈ l
    | maxconnections_go =>
        RaceTimeout ∈ l → ∀ t, (TimerStopped t ∉ l) ∧ lstep p (TimerStopped t) = None
    end.
Proof.
  intros H. versions v m H.
  all: split; [intros t Ht; log_cases; repeat split; reflexivity|].
  all: try (intros Hr t; split; [intros Ht; log_cases|log_cases; reflexivity]).
  all: intros t Ht [Hf|(r & h' & [Hi|[q' Hq]])]; try discriminate Hf;
    try lstep_step Hq; in_log.
Qed.

(** X14.  A request arms a timer only with a queue permit acquired, only
    when [MaxWaitInQueue] is positive, and for that duration.  The version of
    [src/unnamed/part_000] has stopped every timer it armed when it calls a
    handler and when it leaves [ServeHTTP], also after the deadline has
    passed; [src/maxconnections/maxconnections.go] never stops a timer whose
    deadline has passed. *)
Theorem X14_timers (v : version) (m : Middleware) (s : state) :
  reachable (sys v m) s →
  ∀ g, g ∈ procs s →
    (∀ t, TimerNew t ∈ log g →
       t = Timer (MaxWaitInQueue m) ∧ (0 < MaxWaitInQueue m)%Z
       ∧ acquired m_queue (log g) = 1)
    ∧ match v with
      | part_000 =>
          ∀ t, TimerNew t ∈ log g →
            finished (code g) = true
            ∨ (∃ r h, Invoked r h ∈ log g ∨ is_Some (lstep (code g) (Invoked r h))) →
            TimerStopped t ∈ log g
      | maxconnections_go =>
          RaceTimeout ∈ log g →
          ∀ t, (TimerStopped t ∉ log g) ∧ lstep (code g) (TimerStopped t) = None
      end.
Proof.
  intros Hs g Hg.
  pose proof (reachable_lrun _ _ Hs) as Hall. rewrite Forall_forall in Hall.
  destruct (timers_run _ _ _ _ (Hall g Hg)) as [H1 H2].
  split; [|exact H2].
  intros t Ht. destruct (H1 t Ht) as (-> & Hd & Ha).
  repeat split; try done. by apply Z.ltb_lt.
Qed.

Lemma X14_witness :
  reachable (sys part_000 test_m') (st_served part_000)
  ∧ proc_at (st_served part_000) 3 ∈ procs (st_served part_000)
  ∧ TimerNew (Timer 1) ∈ log (proc_at (st_served part_000) 3)
  ∧ finished (code (proc_at (st_served part_000) 3)) = true
  ∧ TimerStopped (Timer 1) ∈ log (proc_at (st_served part_000) 3).
Proof.
  assert (reachable (sys part_000 test_m') (st_served part_000)) as Hr.
  { apply after_reachable. vm_compute. eauto. }
  assert (proc_at (st_served part_000) 3 ∈ procs (st_served part_000)) as Hg.
  { apply (list_elem_of_lookup_2 _ 3). reflexivity. }
  assert (TimerNew (Timer 1) ∈ log (proc_at (st_served part_000) 3)) as Ht.
  { vm_compute. do 2 apply list_elem_of_further. apply list_elem_of_here. }
  destruct (X14_timers part_000 test_m' _ Hr _ Hg) as [_ H2].
  exact (conj Hr (conj Hg (conj Ht (conj eq_refl (H2 _ Ht (or_introl eq_refl)))))).
Defined.

(** X15.  A negative [MaxWaitInQueue] is treated like zero: the test of the
    code is [m.MaxWaitInQueue > 0], so that no timer is made, the
    [case <-timeout] is never taken, and a queued wait ends only by a running
    slot or by the cancellation. *)
Theorem X15_negative_wait_is_no_deadline (v : version) (m : Middleware) (s : state) :
  (MaxWaitInQueue m < 0)%Z →
  reachable (sys v m) s →
  ∀ i g, procs s !! i = Some g →
    (∀ t, TimerNew t ∉ log g)
    ∧ (RaceTimeout ∉ log g)
    ∧ step (sys v m) s (Act i RaceTimeout) = None
    ∧ (race_over (log g) → RaceSent m_running ∈ log g ∨ RaceCancel ∈ log g).
Proof.
  intros Hd Hs i g Hi.
  assert (g ∈ procs s) as Hg by (eapply list_elem_of_lookup_2; eauto).
  pose proof (reachable_lrun _ _ Hs) as Hall. rewrite Forall_forall in Hall.
  assert ((0 <? MaxWaitInQueue m)%Z = false) as Hd' by (apply Z.ltb_ge; lia).
  destruct (no_deadline_run _ _ _ _ (Hall g Hg) Hd') as (H1 & H2 & H3 & H4 & H5).
  repeat split; try assumption.
  simpl. rewrite Hi. simpl. unfold advance. simpl in H3. by rewrite H3.
Qed.

Lemma X15_witness :
  (MaxWaitInQueue (set_MaxWaitInQueue (-5) test_m) < 0)%Z
  ∧ reachable (sys maxconnections_go (set_MaxWaitInQueue (-5) test_m))
      (after (sys maxconnections_go (set_MaxWaitInQueue (-5) test_m)) one_queued)
  ∧ procs (after (sys maxconnections_go (set_MaxWaitInQueue (-5) test_m)) one_queued) !! 2
    = Some (proc_at (after (sys maxconnections_go (set_MaxWaitInQueue (-5) test_m))
                       one_queued) 2)
  ∧ step (sys maxconnections_go (set_MaxWaitInQueue (-5) test_m))
      (after (sys maxconnections_go (set_MaxWaitInQueue (-5) test_m)) one_queued)
      (Act 2 RaceTimeout) = None.
Proof.
  assert (reachable (sys maxconnections_go (set_MaxWaitInQueue (-5) test_m))
            (after (sys maxconnections_go (set_MaxWaitInQueue (-5) test_m)) one_queued))
    as Hr.
  { apply after_reachable. vm_compute. eauto. }
  destruct (X15_negative_wait_is_no_deadline maxconnections_go
              (set_MaxWaitInQueue (-5) test_m) _ eq_refl Hr 2 _ eq_refl)
    as (_ & _ & H3 & _).
  exact (conj eq_refl (conj Hr (conj eq_refl H3))).
Defined.
